(** * electron-ipc-service: correlation and relay engine

    A shallow embedding of the request/response layer of
    [@sovea/electron-ipc-service]:

    - [Base]      : [src/core/base.ts]     (class [BaseIpcService])
    - [Fn]        : [src/utils/fn.ts]      ([processFunction])
    - [Renderer]  : [src/core/renderer.ts] (class [IpcRendererService])
    - [Main]      : [src/core/main.ts]     (class [IpcMainService])

    JavaScript values are a small tagged union (numbers are integers), the
    [Map] of pending requests is an insertion-ordered association list, side
    effects on the outside world (timers, continuations, transport sends)
    are logged or kept in an explicit state, and [try]/[catch] is a sum type.
    Promises are cells that settle once; the event loop is a function from a
    state and an event to the next state, microtasks included. *)

From Stdlib Require Import String Ascii List ZArith Bool Arith Lia DecimalString.
From Stdlib Require Import Permutation.
Import ListNotations.
Open Scope string_scope.
Open Scope list_scope.

(** ** JavaScript values *)

(** The payloads that cross the transport are opaque structured values; the
    code only ever tests them for truthiness ([error || ...], [if (error)]).
    [VError msg] stands for [new Error(msg)]. *)
Inductive value : Type :=
| VUndefined
| VNull
| VBool (b : bool)
| VNum (n : Z)
| VStr (s : string)
| VError (message : string).

Definition truthy (v : value) : bool :=
  match v with
  | VUndefined | VNull => false
  | VBool b => b
  | VNum n => negb (n =? 0)%Z
  | VStr s => negb (s =? "")
  | VError _ => true
  end.

(** How a promise settles. *)
Inductive settlement : Type :=
| Fulfilled (v : value)
| Rejected (e : value).

(** A promise cell: [None] while pending.  Settling is first-come: calling
    the resolve or reject function of a settled promise does nothing. *)
Definition promise : Type := option settlement.

Definition settle (p : promise) (s : settlement) : promise :=
  match p with
  | None => Some s
  | Some _ => p
  end.

(** Timer handles returned by [setTimeout]. *)
Definition Timer : Type := nat.

(** ** Constants *)

Module IpcChannelType.

(** Modelled from the spec: the module [src/constants] that declares
    [IpcChannelType] is not among the sources.  The spec names the channels
    [internal:<operation>] and [external:<operation>], so the two role tags
    are these literals. *)
Inductive t : Type := Internal | External.

Definition tag (r : t) : string :=
  match r with
  | Internal => "internal"
  | External => "external"
  end.

End IpcChannelType.

(** The template literal [`${IpcChannelType.X}:${name}`] that every method
    builds before calling [wrapChannel]. *)
Definition scoped (r : IpcChannelType.t) (name : string) : string :=
  IpcChannelType.tag r ++ ":" ++ name.

(** ** [src/core/base.ts] *)

Module Base.

(** [IpcServiceBaseOptions]; a field is [None] when it is [undefined]. *)
Record IpcServiceBaseOptions : Type := {
  ipcChannelPrefix : option string;
  pendingRequestTimeout : option Z
}.

(** The constructor: [{ ipcChannelPrefix: 'ipc-service:',
    pendingRequestTimeout: 5000, ...(options || {}) }].  A field the
    argument has overrides the default; [None] in the argument is a field
    the argument does not have.  (An argument that has a field set to
    [undefined] is not covered: the spread would copy the [undefined] over
    the default.) *)
Definition defaults : IpcServiceBaseOptions :=
  {| ipcChannelPrefix := Some "ipc-service:";
     pendingRequestTimeout := Some 5000%Z |}.

Definition mergeOptions (user : option IpcServiceBaseOptions)
  : IpcServiceBaseOptions :=
  match user with
  | None => defaults
  | Some u =>
      {| ipcChannelPrefix :=
           match ipcChannelPrefix u with
           | Some p => Some p
           | None => ipcChannelPrefix defaults
           end;
         pendingRequestTimeout :=
           match pendingRequestTimeout u with
           | Some w => Some w
           | None => pendingRequestTimeout defaults
           end |}
  end.

Section WithContinuations.

(** The type of the stored [resolve] and [reject] functions. *)
Context {K : Type}.

Record PendingRequest : Type := {
  resolve : K;
  reject : K;
  timeout : option Timer
}.

(** The [Map<string, ...>]: keys in insertion order. *)
Definition table : Type := list (string * PendingRequest).

Fixpoint get (m : table) (id : string) : option PendingRequest :=
  match m with
  | [] => None
  | (k, v) :: m' => if k =? id then Some v else get m' id
  end.

(** [Map.prototype.set]: an existing key keeps its place. *)
Fixpoint set (m : table) (id : string) (v : PendingRequest) : table :=
  match m with
  | [] => [(id, v)]
  | (k, w) :: m' =>
      if k =? id then (k, v) :: m' else (k, w) :: set m' id v
  end.

Definition delete (m : table) (id : string) : table :=
  filter (fun kv => negb (fst kv =? id)) m.

(** What a method does to the world outside the service object. *)
Inductive effect : Type :=
| ClearTimeout (t : Timer)
| Call (k : K) (arg : value).

(** The instance: its options, its table, and the randomness behind
    [nanoid()] ([entropy n] is the [n]-th identifier it hands out). *)
Record BaseIpcService : Type := {
  options : IpcServiceBaseOptions;
  pendingRequests : table;
  entropy : nat -> string;
  generated : nat
}.

Definition withPending (s : BaseIpcService) (m : table) : BaseIpcService :=
  {| options := options s;
     pendingRequests := m;
     entropy := entropy s;
     generated := generated s |}.

Definition create (user : option IpcServiceBaseOptions)
           (rng : nat -> string) : BaseIpcService :=
  {| options := mergeOptions user;
     pendingRequests := [];
     entropy := rng;
     generated := 0 |}.

Definition generateId (s : BaseIpcService) : string * BaseIpcService :=
  (entropy s (generated s),
   {| options := options s;
      pendingRequests := pendingRequests s;
      entropy := entropy s;
      generated := S (generated s) |}).

(** [`${this.options.ipcChannelPrefix || ''}${channel}`] *)
Definition wrapChannel (s : BaseIpcService) (channel : string) : string :=
  match ipcChannelPrefix (options s) with
  | Some p => p
  | None => ""
  end ++ channel.

Definition addPendingRequest (s : BaseIpcService) (id : string)
           (res rej : K) (t : option Timer) : BaseIpcService :=
  withPending s
    (set (pendingRequests s) id
         {| resolve := res; reject := rej; timeout := t |}).

(** [if (timeout) { clearTimeout(timeout); }] *)
Definition clearIfSet (t : option Timer) : list effect :=
  match t with
  | Some h => [ClearTimeout h]
  | None => []
  end.

Definition resolvePendingRequest (s : BaseIpcService) (id : string)
           (data : value) : list effect * BaseIpcService :=
  match get (pendingRequests s) id with
  | Some pendingRequest =>
      (clearIfSet (timeout pendingRequest)
         ++ [Call (resolve pendingRequest) data],
       withPending s (delete (pendingRequests s) id))
  | None => ([], s)
  end.

(** [new Error(`Request ${id} has been reject`)] *)
Definition rejectedError (id : string) : value :=
  VError ("Request " ++ id ++ " has been reject").

(** [error] is [VUndefined] when the optional argument is left out. *)
Definition rejectPendingRequest (s : BaseIpcService) (id : string)
           (error : value) : list effect * BaseIpcService :=
  match get (pendingRequests s) id with
  | Some pendingRequest =>
      (clearIfSet (timeout pendingRequest)
         ++ [Call (reject pendingRequest)
                  (if truthy error then error else rejectedError id)],
       withPending s (delete (pendingRequests s) id))
  | None => ([], s)
  end.

(** What the [forEach] callback does to the outside for one entry. *)
Definition rejection (kv : string * PendingRequest) : list effect :=
  clearIfSet (timeout (snd kv))
    ++ [Call (reject (snd kv)) (rejectedError (fst kv))].

(** One round of the [forEach] callback. *)
Definition dropOne (acc : list effect * BaseIpcService)
           (kv : string * PendingRequest) : list effect * BaseIpcService :=
  (fst acc ++ rejection kv,
   withPending (snd acc) (delete (pendingRequests (snd acc)) (fst kv))).

(** [this.pendingRequests.forEach(...)]: every entry present when the
    loop starts is visited once, in insertion order; the callback deletes
    only the entry it is visiting. *)
Definition dropAllPendingRequests (s : BaseIpcService)
  : list effect * BaseIpcService :=
  fold_left dropOne (pendingRequests s) ([], s).

Definition destroy (s : BaseIpcService) : list effect * BaseIpcService :=
  dropAllPendingRequests s.

(** A settlement attempt on the table, as issued by a reply handler, a
    timer or a shutdown. *)
Inductive attempt : Type :=
| Resolve (id : string) (data : value)
| Reject (id : string) (error : value)
| DropAll.

Definition perform (s : BaseIpcService) (a : attempt)
  : list effect * BaseIpcService :=
  match a with
  | Resolve id data => resolvePendingRequest s id data
  | Reject id error => rejectPendingRequest s id error
  | DropAll => dropAllPendingRequests s
  end.

Definition performAll (s : BaseIpcService) (l : list attempt)
  : list effect * BaseIpcService :=
  fold_left (fun acc a =>
               let r := perform (snd acc) a in
               (fst acc ++ fst r, snd r))
            l ([], s).

(** The continuations invoked by a run of effects. *)
Definition calls (l : list effect) : list (K * value) :=
  flat_map (fun e => match e with
                     | Call k v => [(k, v)]
                     | ClearTimeout _ => []
                     end) l.

(** The keys of the [Map], in iteration order. *)
Definition keys (m : table) : list string := map fst m.

(** Any use of the table through the methods of the class. *)
Inductive operation : Type :=
| AddPending (id : string) (res rej : K) (t : option Timer)
| Settle (a : attempt).

Definition operate (s : BaseIpcService) (o : operation)
  : list effect * BaseIpcService :=
  match o with
  | AddPending id res rej t => ([], addPendingRequest s id res rej t)
  | Settle a => perform s a
  end.

Definition operateAll (s : BaseIpcService) (l : list operation)
  : list effect * BaseIpcService :=
  fold_left (fun acc o =>
               let r := operate (snd acc) o in
               (fst acc ++ fst r, snd r))
            l ([], s).

End WithContinuations.

Arguments PendingRequest : clear implicits.
Arguments table : clear implicits.
Arguments effect : clear implicits.
Arguments BaseIpcService : clear implicits.
Arguments operation : clear implicits.

End Base.

(** ** Promises raced against a timer *)

(** What the event loop later delivers to an awaited call: the timer it
    installed fires, or the operation it is waiting for settles. *)
Inductive tick : Type :=
| TimerFired
| Settled (s : settlement).

(** An [await] on either the underlying promise alone or on
    [Promise.race([underlying, timeoutPromise])].  [timer] is the
    [setTimeout(() => reject(error), delay)] the call installed, if any;
    [result] is the promise the caller awaits. *)
Record Race : Type := {
  timer : option (Z * value);
  result : promise
}.

Definition step (x : Race) (ev : tick) : Race :=
  match ev with
  | Settled s => {| timer := timer x; result := settle (result x) s |}
  | TimerFired =>
      match timer x with
      | Some (_, error) =>
          {| timer := timer x; result := settle (result x) (Rejected error) |}
      | None => x
      end
  end.

Definition run (x : Race) (evs : list tick) : Race := fold_left step evs x.

(** The delay [setTimeout] really waits.  The delay is a 32-bit integer: a
    value from 1 to 2147483647 is taken as it is; Node replaces any other
    value by 1 (a browser wraps it to 32 bits, which is never more than the
    value asked for either). *)
Definition timerDelay (T : Z) : Z :=
  if ((1 <=? T) && (T <=? 2147483647))%Z then T else 1%Z.

(** Logical time.  The underlying operation settles at time [r] with [s]
    ([None]: never); a timer set with delay [T] fires at time
    [timerDelay T].  The code does not decide the order of two events at the
    same instant; the list puts the underlying promise first there, and the
    statements about a race are about distinct instants. *)
Definition schedule (x : Race) (underlying : option (Z * settlement))
  : list (Z * tick) :=
  match timer x, underlying with
  | None, None => []
  | None, Some (r, s) => [(r, Settled s)]
  | Some (T, _), None => [(timerDelay T, TimerFired)]
  | Some (T, _), Some (r, s) =>
      if (r <=? timerDelay T)%Z
      then [(r, Settled s); (timerDelay T, TimerFired)]
      else [(timerDelay T, TimerFired); (r, Settled s)]
  end.

Definition elapsed (now : Z) (l : list (Z * tick)) : list tick :=
  map snd (filter (fun p => (fst p <=? now)%Z) l).

(** The awaited promise as the caller sees it at time [now]. *)
Definition observe (x : Race) (underlying : option (Z * settlement))
           (now : Z) : promise :=
  result (run x (elapsed now (schedule x underlying))).

(** A timeout that is zero, negative or left out. *)
Definition notPositive (timeout : option Z) : Prop :=
  match timeout with
  | Some t => (t <= 0)%Z
  | None => True
  end.

(** The first settlement among the events, if any. *)
Fixpoint firstSettled (evs : list tick) : promise :=
  match evs with
  | [] => None
  | Settled s :: _ => Some s
  | TimerFired :: evs' => firstSettled evs'
  end.

(** What decides a race between an awaitable and, when [timed], a timer
    whose callback rejects with [error]: the first settlement, or the first
    expiry if it comes before. *)
Fixpoint firstOutcome (timed : bool) (error : value) (evs : list tick)
  : promise :=
  match evs with
  | [] => None
  | Settled s :: _ => Some s
  | TimerFired :: evs' =>
      if timed then Some (Rejected error) else firstOutcome timed error evs'
  end.

(** ** [src/utils/fn.ts] *)

Module Fn.

(** What calling a JavaScript function does before control returns to the
    caller: it throws, it returns a plain value, or it returns an
    awaitable that settles later (a [Settled] tick). *)
Inductive behaviour : Type :=
| Throws (e : value)
| Returns (v : value)
| Awaitable.

Definition timedOut : value := VError "Process function timed out".

(** [processFunction(fn, { data, timeout })]: the state of the returned
    promise when the synchronous part is over.  [fn(...data)] runs before
    the timer is installed, so a synchronous throw installs none. *)
Definition processFunction {A : Type} (fn : A -> behaviour) (data : A)
           (timeout : option Z) : Race :=
  let timeout := match timeout with Some t => t | None => 0%Z end in
  let installed :=
    if (0 <? timeout)%Z then Some (timeout, timedOut) else None in
  match fn data with
  | Throws e => {| timer := None; result := Some (Rejected e) |}
  | Returns v => {| timer := installed; result := Some (Fulfilled v) |}
  | Awaitable => {| timer := installed; result := None |}
  end.

End Fn.

(** ** Transport messages *)

(** [RequestOptions] together with the addressing fields of [invokeTo] and
    [sendTo]; every field is optional in the source. *)
Record RequestOptions : Type := {
  timeout : option Z;
  data : option (list value);
  webContentsId : option Z;
  windowParams : option (list value)
}.

(** The third argument a forwarded message carries to the target:
    [{ requestId, webContentsId, timeout }], here [requestId], [callerId]
    (the sender's [webContentsId]) and [budget] (the [timeout]).  The send-to
    path sets only [webContentsId]. *)
Record RelayMeta : Type := {
  requestId : option string;
  callerId : Z;
  budget : option Z
}.

(** ** [src/core/renderer.ts] *)

Module Renderer.

Inductive method : Type := Send | Invoke.

(** Arguments after the channel name in [ipcRenderer.send] and
    [ipcRenderer.invoke]. *)
Inductive payload : Type :=
| Args (data : list value)
| Relay (channel : string) (options : RequestOptions)
| Reply (requestId : option string) (data : value) (error : value).

Record Outgoing : Type := {
  via : method;
  channel : string;
  body : payload
}.

(** The event object is opaque to the service. *)
Inductive IpcRendererEvent : Type := ipcRendererEvent.

(** [IpcRendererServiceListener]: [(event, data, options) => ...] *)
Definition Listener : Type :=
  IpcRendererEvent -> option (list value) -> RelayMeta -> Fn.behaviour.

Definition ListenerArgs : Type :=
  (IpcRendererEvent * option (list value) * RelayMeta)%type.

Definition apply (listener : Listener) (args : ListenerArgs) : Fn.behaviour :=
  let '(event, data, options) := args in listener event data options.

(** One run of a wrapped listener: the awaited [processFunction] call, the
    [requestId] the closure holds, and what it has sent so far. *)
Record Handling : Type := {
  execution : Race;
  tagged : option string;
  sent : list Outgoing
}.

Section Service.

Context {K : Type}.
Variable this : Base.BaseIpcService K.

(** The [ipcRenderer.send(reply-to, requestId, data, rspError)] after the
    [try]/[catch]: [data] is assigned only when the [await] returns,
    [rspError] only when it throws. *)
Definition reply (requestId : option string) (s : settlement) : Outgoing :=
  {| via := Send;
     channel :=
       Base.wrapChannel this (scoped IpcChannelType.Internal "reply-to");
     body :=
       match s with
       | Fulfilled v => Reply requestId v VUndefined
       | Rejected e => Reply requestId VUndefined e
       end |}.

Definition replies (requestId : option string) (p : promise)
  : list Outgoing :=
  match p with
  | Some s => [reply requestId s]
  | None => []
  end.

(** [wrapListener(listener)(...args)] up to the point where it either has
    finished or is suspended at the [await]. *)
Definition wrapListener (listener : Listener) (args : ListenerArgs)
  : Handling :=
  let '(_, _, options) := args in
  let x := Fn.processFunction (apply listener) args (budget options) in
  {| execution := x;
     tagged := requestId options;
     sent := replies (requestId options) (result x) |}.

(** The event loop delivers a tick to a run of the wrapped listener: the
    code after the [await] runs when the awaited promise settles, once. *)
Definition resume (h : Handling) (ev : tick) : Handling :=
  match result (execution h) with
  | Some _ =>
      {| execution := step (execution h) ev;
         tagged := tagged h;
         sent := sent h |}
  | None =>
      let x := step (execution h) ev in
      {| execution := x;
         tagged := tagged h;
         sent := sent h ++ replies (tagged h) (result x) |}
  end.

(** The reply is sent when the awaited promise settles, and only
    then. *)
Definition inStep (h : Handling) : Prop :=
  sent h = replies (tagged h) (result (execution h)).

Definition handling (listener : Listener) (args : ListenerArgs)
           (evs : list tick) : Handling :=
  fold_left resume evs (wrapListener listener args).

Definition invokeTimedOut : value := VError "Invoke function timed out".

(** [invoke(channel, options)]: the request handed to
    [ipcRenderer.invoke] and the promise the caller awaits. *)
Definition invoke (channel : string) (options : option RequestOptions)
  : Outgoing * Race :=
  let timeout :=
    match options with
    | Some o => match timeout o with Some t => t | None => 0%Z end
    | None => 0%Z
    end in
  let data :=
    match options with
    | Some o => match data o with Some d => d | None => [] end
    | None => []
    end in
  let ipcChannel :=
    Base.wrapChannel this (scoped IpcChannelType.External channel) in
  ({| via := Invoke; channel := ipcChannel; body := Args data |},
   {| timer :=
        if (0 <? timeout)%Z then Some (timeout, invokeTimedOut) else None;
      result := None |}).

(** [invokeTo(channel, options)]: one [ipcRenderer.invoke]; the service
    object is not touched. *)
Definition invokeTo (channel : string) (options : RequestOptions)
  : Outgoing * Base.BaseIpcService K :=
  ({| via := Invoke;
      channel :=
        Base.wrapChannel this (scoped IpcChannelType.Internal "invoke-to");
      body :=
        Relay (Base.wrapChannel this
                 (scoped IpcChannelType.External channel))
              options |},
   this).

Definition sendTo (channel : string) (options : RequestOptions)
  : Outgoing * Base.BaseIpcService K :=
  ({| via := Send;
      channel :=
        Base.wrapChannel this (scoped IpcChannelType.Internal "send-to");
      body :=
        Relay (Base.wrapChannel this
                 (scoped IpcChannelType.External channel))
              options |},
   this).

(** [send(channel, ...data)] *)
Definition send (channel : string) (data : list value) : Outgoing :=
  {| via := Send;
     channel := Base.wrapChannel this (scoped IpcChannelType.External channel);
     body := Args data |}.

(** A run of the wrapped listener up to the logical time [now], when the
    listener's awaitable settles as [underlying] says. *)
Definition handlingAt (listener : Listener) (args : ListenerArgs)
           (underlying : option (Z * settlement)) (now : Z) : Handling :=
  handling listener args
    (elapsed now (schedule (execution (wrapListener listener args))
                           underlying)).

End Service.

End Renderer.

(** ** [src/core/main.ts] *)

Module Main.

(** The [resolve] and [reject] functions of the promise created by the
    [n]-th run of the invoke-to handler. *)
Inductive continuation : Type :=
| ResolveOf (invocation : nat)
| RejectOf (invocation : nat).

(** [target.send(channel, data, meta)] *)
Record Forwarded : Type := {
  target : Z;
  channel : string;
  payload : option (list value);
  meta : RelayMeta
}.

(** What the hub sees of Electron: which identifiers [webContents.fromId]
    knows, and which sends the transport refuses by throwing. *)
Record Electron : Type := {
  fromId : Z -> bool;
  sendError : Forwarded -> option value
}.

(** The code after [await] of a suspended handler run, ready to continue
    with the settlement of the promise it awaited. *)
Record Resumption : Type := {
  invocation : nat;
  correlation : string;
  outcome : settlement
}.

Record State : Type := {
  service : Base.BaseIpcService continuation;
  getWebContentsId : option (list value -> option Z);
  timers : list (Timer * string);
  nextTimer : Timer;
  invocations : nat;
  awaiting : list (nat * string);
  microtasks : list Resumption;
  forwarded : list Forwarded;
  returned : list (nat * settlement);
  uncaught : list value
}.

(** [new IpcMainService(options)] *)
Definition create (user : option Base.IpcServiceBaseOptions)
           (lookup : option (list value -> option Z))
           (rng : nat -> string) : State :=
  {| service := Base.create user rng;
     getWebContentsId := lookup;
     timers := [];
     nextTimer := 0;
     invocations := 0;
     awaiting := [];
     microtasks := [];
     forwarded := [];
     returned := [];
     uncaught := [] |}.

Definition withService (st : State) (s : Base.BaseIpcService continuation)
  : State :=
  {| service := s; getWebContentsId := getWebContentsId st;
     timers := timers st; nextTimer := nextTimer st;
     invocations := invocations st; awaiting := awaiting st;
     microtasks := microtasks st; forwarded := forwarded st;
     returned := returned st; uncaught := uncaught st |}.

Definition withTimers (st : State) (l : list (Timer * string)) (n : Timer)
  : State :=
  {| service := service st; getWebContentsId := getWebContentsId st;
     timers := l; nextTimer := n;
     invocations := invocations st; awaiting := awaiting st;
     microtasks := microtasks st; forwarded := forwarded st;
     returned := returned st; uncaught := uncaught st |}.

Definition withInvocations (st : State) (n : nat) : State :=
  {| service := service st; getWebContentsId := getWebContentsId st;
     timers := timers st; nextTimer := nextTimer st;
     invocations := n; awaiting := awaiting st;
     microtasks := microtasks st; forwarded := forwarded st;
     returned := returned st; uncaught := uncaught st |}.

Definition withLoop (st : State) (a : list (nat * string))
           (q : list Resumption) : State :=
  {| service := service st; getWebContentsId := getWebContentsId st;
     timers := timers st; nextTimer := nextTimer st;
     invocations := invocations st; awaiting := a;
     microtasks := q; forwarded := forwarded st;
     returned := returned st; uncaught := uncaught st |}.

Definition withForwarded (st : State) (l : list Forwarded) : State :=
  {| service := service st; getWebContentsId := getWebContentsId st;
     timers := timers st; nextTimer := nextTimer st;
     invocations := invocations st; awaiting := awaiting st;
     microtasks := microtasks st; forwarded := l;
     returned := returned st; uncaught := uncaught st |}.

Definition withReturned (st : State) (l : list (nat * settlement)) : State :=
  {| service := service st; getWebContentsId := getWebContentsId st;
     timers := timers st; nextTimer := nextTimer st;
     invocations := invocations st; awaiting := awaiting st;
     microtasks := microtasks st; forwarded := forwarded st;
     returned := l; uncaught := uncaught st |}.

Definition withUncaught (st : State) (l : list value) : State :=
  {| service := service st; getWebContentsId := getWebContentsId st;
     timers := timers st; nextTimer := nextTimer st;
     invocations := invocations st; awaiting := awaiting st;
     microtasks := microtasks st; forwarded := forwarded st;
     returned := returned st; uncaught := l |}.

(** *** Timers and promises *)

Definition clearTimeout (st : State) (t : Timer) : State :=
  withTimers st
    (filter (fun p => negb (Nat.eqb (fst p) t)) (timers st)) (nextTimer st).

Fixpoint suspended (l : list (nat * string)) (n : nat) : option string :=
  match l with
  | [] => None
  | (m, id) :: l' => if Nat.eqb m n then Some id else suspended l' n
  end.

(** Calling [resolve] or [reject] of the promise of a run: if the run is
    still suspended on it, its continuation is queued. *)
Definition settlePromise (st : State) (n : nat) (s : settlement) : State :=
  match suspended (awaiting st) n with
  | Some id =>
      withLoop st
        (filter (fun p => negb (Nat.eqb (fst p) n)) (awaiting st))
        (microtasks st
           ++ [{| invocation := n; correlation := id; outcome := s |}])
  | None => st
  end.

Definition applyEffect (st : State) (e : Base.effect continuation) : State :=
  match e with
  | Base.ClearTimeout t => clearTimeout st t
  | Base.Call (ResolveOf n) v => settlePromise st n (Fulfilled v)
  | Base.Call (RejectOf n) v => settlePromise st n (Rejected v)
  end.

(** Run a method of the base class on the hub's service object and let
    its effects happen. *)
Definition lift (st : State)
           (r : list (Base.effect continuation)
                * Base.BaseIpcService continuation) : State :=
  fold_left applyEffect (fst r) (withService st (snd r)).

(** *** Target resolution *)

(** [Number.MAX_SAFE_INTEGER]: up to it, in absolute value, an integer is
    a JavaScript number of its own. *)
Definition maxSafeInteger : Z := 9007199254740991%Z.

(** [`${n}`] for an integer [n] with [|n| <= maxSafeInteger]: its decimal
    digits.  (Beyond 10^21 JavaScript prints an exponent.) *)
Definition show (n : Z) : string :=
  DecimalString.NilZero.string_of_int (Z.to_int n).

(** Truthiness of a [number | undefined]. *)
Definition nonzero (o : option Z) : option Z :=
  match o with
  | Some n => if (n =? 0)%Z then None else Some n
  | None => None
  end.

(** [webContentsId || (windowParams
       ? this.options.getWebContentsId?.(...windowParams) : undefined)] *)
Definition targetWebContentsId (st : State) (options : RequestOptions)
  : option Z :=
  match nonzero (webContentsId options) with
  | Some n => Some n
  | None =>
      match windowParams options with
      | Some params =>
          match getWebContentsId st with
          | Some lookup => lookup params
          | None => None
          end
      | None => None
      end
  end.

(** The first statements of the [try] block of both relay handlers: the
    identifier of the live target ([inl]) or the error thrown ([inr]). *)
Definition resolveTarget (w : Electron) (st : State)
           (options : RequestOptions) : Z + value :=
  match nonzero (targetWebContentsId st options) with
  | None => inr (VError "webContentsId is required")
  | Some id =>
      if fromId w id then inl id
      else inr (VError ("webContents with id " ++ show id ++ " not found"))
  end.

(** *** The invoke-to handler *)

(** [catch (error) { this.rejectPendingRequest(requestId, error); }],
    after which the [async] function ends and its promise is fulfilled
    with [undefined]. *)
Definition catchInvokeTo (st : State) (n : nat) (requestId : string)
           (error : value) : State :=
  let st := lift st (Base.rejectPendingRequest (service st) requestId error) in
  withReturned st (returned st ++ [(n, Fulfilled VUndefined)]).

(** The handler of the invoke-to channel, for a message that carries its
    [options] object, as the renderer's [invokeTo] always sends it.  (The
    destructuring of [options] stands before the [try]: a message without
    the object would make the handler reject with a [TypeError].) *)
Definition handleInvokeTo (w : Electron) (st : State) (sender : Z)
           (channel : string) (options : RequestOptions) : State :=
  let n := invocations st in
  let st := withInvocations st (S n) in
  let (requestId, s) := Base.generateId (service st) in
  let st := withService st s in
  let wait :=
    match timeout options with
    | Some t => Some t
    | None => Base.pendingRequestTimeout (Base.options (service st))
    end in
  match resolveTarget w st options with
  | inr error => catchInvokeTo st n requestId error
  | inl id =>
      (* the executor of [new Promise] *)
      let timeout := nextTimer st in
      let st :=
        withTimers st (timers st ++ [(timeout, requestId)]) (S timeout) in
      let message :=
        {| target := id;
           channel := channel;
           payload := data options;
           meta := {| requestId := Some requestId;
                      callerId := sender;
                      budget := wait |} |} in
      match sendError w message with
      | Some error =>
          (* the executor throws: the promise is rejected, and the [await]
             rethrows into the [catch] block on the next microtask *)
          withLoop st (awaiting st)
            (microtasks st
               ++ [{| invocation := n; correlation := requestId;
                      outcome := Rejected error |}])
      | None =>
          let st := withForwarded st (forwarded st ++ [message]) in
          let st :=
            withService st
              (Base.addPendingRequest (service st) requestId
                 (ResolveOf n) (RejectOf n) (Some timeout)) in
          withLoop st ((n, requestId) :: awaiting st) (microtasks st)
      end
  end.

(** The rest of a suspended run: [return await ...] or the [catch]. *)
Definition continue (st : State) (m : Resumption) : State :=
  match outcome m with
  | Fulfilled v =>
      withReturned st (returned st ++ [(invocation m, Fulfilled v)])
  | Rejected e => catchInvokeTo st (invocation m) (correlation m) e
  end.

(** The callback given to [setTimeout] by the invoke-to handler.  A timer
    that was cleared does not fire; one that fires is no longer pending. *)
Definition fireTimer (st : State) (t : Timer) : State :=
  match find (fun p => Nat.eqb (fst p) t) (timers st) with
  | None => st
  | Some (_, requestId) =>
      let st := clearTimeout st t in
      let st :=
        lift st (Base.rejectPendingRequest (service st) requestId
                   (VError "Request timeout")) in
      clearTimeout st t
  end.

(** *** The reply-to and send-to handlers *)

(** A message whose [requestId] is [undefined] finds no entry in a table
    keyed by strings. *)
Definition handleReplyTo (st : State) (requestId : option string)
           (responseData : value) (error : value) : State :=
  match requestId with
  | None => st
  | Some id =>
      if truthy error
      then lift st (Base.rejectPendingRequest (service st) id error)
      else lift st (Base.resolvePendingRequest (service st) id responseData)
  end.

(** [catch (error) { throw error; }]: the error leaves the listener. *)
Definition handleSendTo (w : Electron) (st : State) (sender : Z)
           (channel : string) (options : RequestOptions) : State :=
  match resolveTarget w st options with
  | inr error => withUncaught st (uncaught st ++ [error])
  | inl id =>
      let message :=
        {| target := id;
           channel := channel;
           payload := data options;
           meta := {| requestId := None;
                      callerId := sender;
                      budget := None |} |} in
      match sendError w message with
      | Some error => withUncaught st (uncaught st ++ [error])
      | None => withForwarded st (forwarded st ++ [message])
      end
  end.

(** *** Registration *)

Inductive registration : Type :=
| Handle   (* [ipcMain.handle]: the sender awaits the handler's result *)
| On.      (* [ipcMain.on]: fire and forget *)

Inductive handler : Type := InvokeTo | ReplyTo | SendTo.

(** [init()]: the three channels the constructor listens on. *)
Definition init (s : Base.BaseIpcService continuation)
  : list (string * registration * handler) :=
  [ (Base.wrapChannel s (scoped IpcChannelType.Internal "invoke-to"),
     Handle, InvokeTo);
    (Base.wrapChannel s (scoped IpcChannelType.Internal "reply-to"),
     On, ReplyTo);
    (Base.wrapChannel s (scoped IpcChannelType.Internal "send-to"),
     On, SendTo) ].

(** *** The event loop *)

Inductive event : Type :=
| InvokeToMessage (sender : Z) (channel : string) (options : RequestOptions)
| ReplyToMessage (requestId : option string) (responseData error : value)
| SendToMessage (sender : Z) (channel : string) (options : RequestOptions)
| TimerExpired (t : Timer)
| Destroy.

Definition task (w : Electron) (st : State) (ev : event) : State :=
  match ev with
  | InvokeToMessage sender channel options =>
      handleInvokeTo w st sender channel options
  | ReplyToMessage requestId responseData error =>
      handleReplyTo st requestId responseData error
  | SendToMessage sender channel options =>
      handleSendTo w st sender channel options
  | TimerExpired t => fireTimer st t
  | Destroy => lift st (Base.destroy (service st))
  end.

(** Microtasks run until the queue is empty.  Every continuation either
    shortens the queue or removes a pending entry, so the sum of the two
    lengths bounds the number of rounds. *)
Fixpoint drain (rounds : nat) (st : State) : State :=
  match rounds with
  | 0 => st
  | S rounds' =>
      match microtasks st with
      | [] => st
      | m :: rest =>
          drain rounds' (continue (withLoop st (awaiting st) rest) m)
      end
  end.

Definition budgetOf (st : State) : nat :=
  length (microtasks st) + length (Base.pendingRequests (service st)).

(** One turn of the loop: a task, then all microtasks. *)
Definition dispatch (w : Electron) (st : State) (ev : event) : State :=
  let st := task w st ev in drain (budgetOf st) st.

Definition runAll (w : Electron) (st : State) (evs : list event) : State :=
  fold_left (dispatch w) evs st.

(** *** The transport between a window and the hub *)

Definition route (s : Base.BaseIpcService continuation) (name : string)
  : option handler :=
  match find (fun r => fst (fst r) =? name) (init s) with
  | Some (_, _, h) => Some h
  | None => None
  end.

(** A message sent by the window [sender] reaches the listener the hub
    registered under the message's channel name, if there is one. *)
Definition receive (w : Electron) (st : State) (sender : Z)
           (m : Renderer.Outgoing) : State :=
  match route (service st) (Renderer.channel m), Renderer.body m with
  | Some InvokeTo, Renderer.Relay channel options =>
      dispatch w st (InvokeToMessage sender channel options)
  | Some SendTo, Renderer.Relay channel options =>
      dispatch w st (SendToMessage sender channel options)
  | Some ReplyTo, Renderer.Reply requestId responseData error =>
      dispatch w st (ReplyToMessage requestId responseData error)
  | _, _ => st
  end.

(** A forwarded message reaches the target's listener as
    [(event, data, meta)]. *)
Definition arrives (m : Forwarded) : Renderer.ListenerArgs :=
  (Renderer.ipcRendererEvent, payload m, meta m).

(** The request identifiers the hub has handed to targets. *)
Definition delivered (st : State) : list (option string) :=
  map (fun m => requestId (meta m)) (forwarded st).

Definition fulfilled (r : nat * settlement) : Prop :=
  exists v, snd r = Fulfilled v.

(** [st'] has answered the callers [st] had answered and possibly more,
    each of the new ones with a fulfilment. *)
Definition answers (st st' : State) : Prop :=
  exists extra, returned st' = returned st ++ extra
                /\ Forall fulfilled extra.

(** [st'] has forwarded what [st] had, and no further error has left a
    listener. *)
Definition quiet (st st' : State) : Prop :=
  forwarded st' = forwarded st /\ uncaught st' = uncaught st.

(** The runs of the invoke-to handler the state knows of: suspended at
    the [await], about to continue, or finished. *)
Definition running (st : State) : list nat :=
  map fst (awaiting st) ++ map invocation (microtasks st)
      ++ map fst (returned st).

(** No run is in two places, or twice in one, and every run was started;
    [current] are runs whose code is executing. *)
Definition wellFormed (current : list nat) (st : State) : Prop :=
  NoDup (current ++ running st)
  /\ Forall (fun n => n < invocations st) (current ++ running st).

(** The settlement of the caller's [ipcRenderer.invoke] for run [n]. *)
Fixpoint answer (l : list (nat * settlement)) (n : nat) : promise :=
  match l with
  | [] => None
  | (m, s) :: l' => if Nat.eqb m n then Some s else answer l' n
  end.

End Main.

(** ** Listener registration *)

(** Electron's [ipcRenderer] and [ipcMain] as event emitters: listeners are
    kept per channel in registration order, [off] removes the most recently
    added registration of the function it is given, and a [once] listener is
    removed when it is called. *)
Module Emitter.

(** A function object, known by its identity: the closure returned by the
    [n]-th call of [wrapListener], or a function of the user. *)
Inductive callback : Type :=
| Closure (n : nat) (listener : Renderer.Listener)
| Function (n : nat).

Definition same (f g : callback) : bool :=
  match f, g with
  | Closure n _, Closure m _ => Nat.eqb n m
  | Function n, Function m => Nat.eqb n m
  | _, _ => false
  end.

Record Subscription : Type := {
  channel : string;
  callback_ : callback;
  oneShot : bool
}.

Definition isFor (ch : string) (f : callback) (s : Subscription) : bool :=
  (channel s =? ch) && same (callback_ s) f.

Fixpoint removeFirst (ch : string) (f : callback) (l : list Subscription)
  : list Subscription :=
  match l with
  | [] => []
  | s :: l' => if isFor ch f s then l' else s :: removeFirst ch f l'
  end.

Definition on (l : list Subscription) (ch : string) (f : callback)
  : list Subscription :=
  l ++ [{| channel := ch; callback_ := f; oneShot := false |}].

Definition once (l : list Subscription) (ch : string) (f : callback)
  : list Subscription :=
  l ++ [{| channel := ch; callback_ := f; oneShot := true |}].

Definition off (l : list Subscription) (ch : string) (f : callback)
  : list Subscription :=
  rev (removeFirst ch f (rev l)).

(** A message on [ch]: the functions called, in order, and the
    registrations that remain. *)
Definition emit (l : list Subscription) (ch : string)
  : list callback * list Subscription :=
  (map callback_ (filter (fun s => channel s =? ch) l),
   filter (fun s => negb ((channel s =? ch) && oneShot s)) l).

End Emitter.

(** The closure a registration method returns:
    [() => { emitter.off(ipcChannel, listener); }]. *)
Definition Unsubscribe : Type := (string * Emitter.callback)%type.

(** The registration methods of [IpcRendererService]. *)
Module Window.

Section Process.

Context {K : Type}.

(** A renderer process: its service object, the listeners on its
    [ipcRenderer], and how many closures [wrapListener] has made. *)
Record t : Type := {
  service : Base.BaseIpcService K;
  subscriptions : list Emitter.Subscription;
  closures : nat
}.

Definition handle (win : t) (channel : string) (listener : Renderer.Listener)
  : t * Unsubscribe :=
  let ipcChannel :=
    Base.wrapChannel (service win) (scoped IpcChannelType.External channel) in
  let newListener := Emitter.Closure (closures win) listener in
  ({| service := service win;
      subscriptions := Emitter.on (subscriptions win) ipcChannel newListener;
      closures := S (closures win) |},
   (ipcChannel, newListener)).

Definition handleOnce (win : t) (channel : string)
           (listener : Renderer.Listener) : t * Unsubscribe :=
  let ipcChannel :=
    Base.wrapChannel (service win) (scoped IpcChannelType.External channel) in
  let newListener := Emitter.Closure (closures win) listener in
  ({| service := service win;
      subscriptions := Emitter.once (subscriptions win) ipcChannel newListener;
      closures := S (closures win) |},
   (ipcChannel, newListener)).

Definition receive (win : t) (channel : string) (listener : nat)
  : t * Unsubscribe :=
  let ipcChannel :=
    Base.wrapChannel (service win) (scoped IpcChannelType.External channel) in
  ({| service := service win;
      subscriptions :=
        Emitter.on (subscriptions win) ipcChannel (Emitter.Function listener);
      closures := closures win |},
   (ipcChannel, Emitter.Function listener)).

Definition receiveOnce (win : t) (channel : string) (listener : nat)
  : t * Unsubscribe :=
  let ipcChannel :=
    Base.wrapChannel (service win) (scoped IpcChannelType.External channel) in
  ({| service := service win;
      subscriptions :=
        Emitter.once (subscriptions win) ipcChannel (Emitter.Function listener);
      closures := closures win |},
   (ipcChannel, Emitter.Function listener)).

(** Calling the closure a registration method returned. *)
Definition unsubscribe (win : t) (u : Unsubscribe) : t :=
  {| service := service win;
     subscriptions := Emitter.off (subscriptions win) (fst u) (snd u);
     closures := closures win |}.

(** A registration call, for sequences of them. *)
Inductive registration : Type :=
| Handle (channel : string) (listener : Renderer.Listener)
| HandleOnce (channel : string) (listener : Renderer.Listener)
| Receive (channel : string) (listener : nat)
| ReceiveOnce (channel : string) (listener : nat).

Definition register (win : t) (r : registration) : t :=
  match r with
  | Handle channel listener => fst (handle win channel listener)
  | HandleOnce channel listener => fst (handleOnce win channel listener)
  | Receive channel listener => fst (receive win channel listener)
  | ReceiveOnce channel listener => fst (receiveOnce win channel listener)
  end.

(** A message forwarded by the hub arrives: every listener on its channel
    is called; the wrapped ones start a run, the others reply nothing. *)
Definition deliver (win : t) (m : Main.Forwarded)
  : t * list Renderer.Handling :=
  let (called, rest) := Emitter.emit (subscriptions win) (Main.channel m) in
  ({| service := service win; subscriptions := rest;
      closures := closures win |},
   flat_map (fun f =>
               match f with
               | Emitter.Closure _ listener =>
                   [Renderer.wrapListener (service win) listener
                                          (Main.arrives m)]
               | Emitter.Function _ => []
               end)
            called).

End Process.

Arguments t : clear implicits.

End Window.

(** The registration methods of [IpcMainService].  [ipcMain] keeps the
    handlers of [handle] and [handleOnce], one per channel, apart from the
    listeners of [on] and [once]; [off] removes listeners only. *)
Module MainApi.

Record IpcMain : Type := {
  listeners : list Emitter.Subscription;
  handlers : list (string * (nat * bool))
}.

Fixpoint handlerOf (l : list (string * (nat * bool))) (ch : string)
  : option (nat * bool) :=
  match l with
  | [] => None
  | (k, h) :: l' => if k =? ch then Some h else handlerOf l' ch
  end.

(** [ipcMain.handle] and [ipcMain.handleOnce] throw when the channel has a
    handler. *)
Definition secondHandler (ch : string) : value :=
  VError ("Attempted to register a second handler for '" ++ ch ++ "'").

Section Service.

Context {K : Type}.
Variable this : Base.BaseIpcService K.

Definition on (m : IpcMain) (channel : string) (listener : nat)
  : IpcMain * Unsubscribe :=
  let ipcChannel :=
    Base.wrapChannel this (scoped IpcChannelType.External channel) in
  ({| listeners :=
        Emitter.on (listeners m) ipcChannel (Emitter.Function listener);
      handlers := handlers m |},
   (ipcChannel, Emitter.Function listener)).

Definition once (m : IpcMain) (channel : string) (listener : nat)
  : IpcMain * Unsubscribe :=
  let ipcChannel :=
    Base.wrapChannel this (scoped IpcChannelType.External channel) in
  ({| listeners :=
        Emitter.once (listeners m) ipcChannel (Emitter.Function listener);
      handlers := handlers m |},
   (ipcChannel, Emitter.Function listener)).

Definition register (m : IpcMain) (channel : string) (listener : nat)
           (oneShot : bool) : (IpcMain * Unsubscribe) + value :=
  let ipcChannel :=
    Base.wrapChannel this (scoped IpcChannelType.External channel) in
  match handlerOf (handlers m) ipcChannel with
  | Some _ => inr (secondHandler ipcChannel)
  | None =>
      inl ({| listeners := listeners m;
              handlers := handlers m ++ [(ipcChannel, (listener, oneShot))] |},
           (ipcChannel, Emitter.Function listener))
  end.

Definition handle (m : IpcMain) (channel : string) (listener : nat)
  : (IpcMain * Unsubscribe) + value :=
  register m channel listener false.

Definition handleOnce (m : IpcMain) (channel : string) (listener : nat)
  : (IpcMain * Unsubscribe) + value :=
  register m channel listener true.

(** Calling the closure a registration method returned:
    [ipcMain.off(ipcChannel, listener)]. *)
Definition unsubscribe (m : IpcMain) (u : Unsubscribe) : IpcMain :=
  {| listeners := Emitter.off (listeners m) (fst u) (snd u);
     handlers := handlers m |}.

End Service.

End MainApi.

(** ** A two-window scenario *)

(** The set-up of the README: a hub whose [getWebContentsId] knows the
    window ["sub"], a caller window with identifier 1 and a target window
    with identifier 2. *)
Module Scenario.

Definition nanoid (n : nat) : string :=
  match n with
  | 0 => "V1StGXR8"
  | 1 => "Z5jdHi6B"
  | _ => "myT9wLfk"
  end.

Definition otherNanoid (n : nat) : string :=
  match n with
  | 0 => "q3rTx0Lp"
  | _ => "b7NchW2e"
  end.

Definition getWebContentsId (params : list value) : option Z :=
  match params with
  | [VStr "sub"] => Some 2%Z
  | [VStr "closed"] => Some 9%Z
  | _ => None
  end.

Definition hub : Main.State :=
  Main.create None (Some getWebContentsId) nanoid.

Definition electron : Main.Electron :=
  {| Main.fromId := fun id => (id =? 2)%Z;
     Main.sendError := fun _ => None |}.

(** The caller's window. *)
Definition peer : Base.BaseIpcService unit := Base.create None otherNanoid.

(** [{ data: [7], windowParams: [window] }] *)
Definition toWindow (window : string) : RequestOptions :=
  {| timeout := None;
     data := Some [VNum 7];
     webContentsId := None;
     windowParams := Some [VStr window] |}.

(** [{ data: [], timeout: 50 }] *)
Definition slow : RequestOptions :=
  {| timeout := Some 50%Z;
     data := Some [];
     webContentsId := None;
     windowParams := None |}.

Definition testSub : string := "ipc-service:external:testSub".

(** A table with one entry. *)
Definition waiting : Base.BaseIpcService nat :=
  Base.addPendingRequest (Base.create None nanoid) "V1StGXR8" 10 11 (Some 3).

(** A table with three entries, the last without a timer. *)
Definition queue : Base.BaseIpcService nat :=
  Base.addPendingRequest
    (Base.addPendingRequest waiting "Z5jdHi6B" 20 21 (Some 4))
    "myT9wLfk" 30 31 None.

End Scenario.

(** * Properties *)

(** ** Strings *)

Lemma append_cancel_l (p a b : string) : (p ++ a = p ++ b)%string -> a = b.
Proof.
  induction p as [|c p IH]; simpl; intro H.
  - exact H.
  - injection H as H. exact (IH H).
Qed.

Lemma scoped_inj (r1 r2 : IpcChannelType.t) (o1 o2 : string) :
  scoped r1 o1 = scoped r2 o2 -> r1 = r2 /\ o1 = o2.
Proof.
  unfold scoped.
  destruct r1, r2; simpl; intro H;
    first [ discriminate H | injection H as H; split; [reflexivity | exact H] ].
Qed.

(** ** The pending request table *)

Section Table.

Context {K : Type}.
Implicit Types (m : Base.table K) (s : Base.BaseIpcService K).

Lemma get_delete_absent m id id' :
  Base.get m id = None -> Base.get (Base.delete m id') id = None.
Proof.
  induction m as [|[k v] m IH]; simpl; [reflexivity|].
  destruct (k =? id) eqn:E; [discriminate|]. intro H.
  destruct (k =? id'); simpl; [|rewrite E]; auto.
Qed.

Lemma get_delete_same m id : Base.get (Base.delete m id) id = None.
Proof.
  induction m as [|[k v] m IH]; simpl; [reflexivity|].
  destruct (k =? id) eqn:E; simpl; [|rewrite E]; exact IH.
Qed.

Lemma get_set_same m id v : Base.get (Base.set m id v) id = Some v.
Proof.
  induction m as [|[k w] m IH]; simpl.
  - now rewrite String.eqb_refl.
  - destruct (k =? id) eqn:E; simpl; rewrite E; [reflexivity | exact IH].
Qed.

Lemma delete_length m id : length (Base.delete m id) <= length m.
Proof. apply filter_length_le. Qed.

Lemma delete_present_length m id v :
  Base.get m id = Some v -> length (Base.delete m id) < length m.
Proof.
  induction m as [|[k w] m IH]; simpl; [discriminate|].
  destruct (k =? id) eqn:E; simpl.
  - intros _. pose proof (delete_length m id). lia.
  - intro H. specialize (IH H). lia.
Qed.

(** The loop of [dropAllPendingRequests], for any accumulator. *)
Lemma dropOne_fold (l : Base.table K) (acc : list (Base.effect K) * Base.BaseIpcService K) :
  fold_left Base.dropOne l acc
  = (fst acc ++ flat_map Base.rejection l,
     Base.withPending (snd acc)
       (fold_left (fun m kv => Base.delete m (fst kv)) l
                  (Base.pendingRequests (snd acc)))).
Proof.
  revert acc. induction l as [|kv l IH]; intros [effs s]; simpl.
  - rewrite app_nil_r. now destruct s.
  - rewrite IH. simpl. now rewrite app_assoc.
Qed.

Lemma delete_all_covered (l m : Base.table K) :
  (forall kv, In kv m -> In (fst kv) (map fst l)) ->
  fold_left (fun m kv => Base.delete m (fst kv)) l m = [].
Proof.
  revert m. induction l as [|a l IH]; intros m H; simpl.
  - destruct m as [|kv m]; [reflexivity|].
    destruct (H kv (or_introl eq_refl)).
  - apply IH. intros kv Hin. unfold Base.delete in Hin.
    apply filter_In in Hin. destruct Hin as [Hin Hne].
    destruct (H kv Hin) as [Heq|Hl]; [|exact Hl].
    rewrite Heq, String.eqb_refl in Hne. discriminate.
Qed.

Lemma dropAll_spec s :
  Base.dropAllPendingRequests s
  = (flat_map Base.rejection (Base.pendingRequests s), Base.withPending s []).
Proof.
  unfold Base.dropAllPendingRequests. rewrite dropOne_fold. simpl.
  rewrite delete_all_covered; [reflexivity|].
  intros kv Hin. now apply in_map.
Qed.

Lemma calls_rejections (l : Base.table K) :
  Base.calls (flat_map Base.rejection l)
  = map (fun kv => (Base.reject (snd kv), Base.rejectedError (fst kv))) l.
Proof.
  induction l as [|[id pr] l IH]; simpl; [reflexivity|].
  unfold Base.calls in *. rewrite flat_map_app, IH.
  unfold Base.rejection. simpl. rewrite flat_map_app. simpl.
  destruct (Base.timeout pr); reflexivity.
Qed.

(** An identifier that is not in the table stays out of it whatever
    settlement is attempted. *)
Lemma perform_absent s a id :
  Base.get (Base.pendingRequests s) id = None ->
  Base.get (Base.pendingRequests (snd (Base.perform s a))) id = None.
Proof.
  intro H. destruct a as [i d|i e|]; simpl.
  - unfold Base.resolvePendingRequest.
    destruct (Base.get (Base.pendingRequests s) i); simpl; auto.
    now apply get_delete_absent.
  - unfold Base.rejectPendingRequest.
    destruct (Base.get (Base.pendingRequests s) i); simpl; auto.
    now apply get_delete_absent.
  - now rewrite dropAll_spec.
Qed.

Lemma performAll_snd (l : list (Base.attempt)) s effs :
  snd (fold_left (fun acc a =>
                    let r := Base.perform (snd acc) a in
                    (fst acc ++ fst r, snd r)) l (effs, s))
  = snd (Base.performAll s l).
Proof.
  unfold Base.performAll. generalize (@nil (Base.effect K)) as effs'.
  revert s effs. induction l as [|a l IH]; intros s effs effs'; simpl.
  - reflexivity.
  - apply IH.
Qed.

Lemma performAll_absent (l : list (Base.attempt)) s id :
  Base.get (Base.pendingRequests s) id = None ->
  Base.get (Base.pendingRequests (snd (Base.performAll s l))) id = None.
Proof.
  revert s. induction l as [|a l IH]; intros s H.
  - exact H.
  - unfold Base.performAll. simpl. rewrite performAll_snd.
    apply IH. now apply perform_absent.
Qed.

End Table.

(** ** Claims about [BaseIpcService] *)

(** C4 — A pending entry is settled at most once.  For an identifier that is
    in the table, [resolvePendingRequest] and [rejectPendingRequest] clear
    the entry's timer, delete the entry and call the stored continuation
    (with the data, or with the error, or with the generic error when none
    is given); once one of them has run for the identifier, every later
    resolve or reject for it, after any number of other settlement attempts,
    has no effect and leaves the service as it is. *)
Theorem C4_settled_at_most_once {K : Type} (s : Base.BaseIpcService K)
        (id : string) (pr : Base.PendingRequest K) :
  Base.get (Base.pendingRequests s) id = Some pr ->
  (forall data,
      Base.resolvePendingRequest s id data
      = (Base.clearIfSet (Base.timeout pr) ++ [Base.Call (Base.resolve pr) data],
         Base.withPending s (Base.delete (Base.pendingRequests s) id)))
  /\ (forall error,
         Base.rejectPendingRequest s id error
         = (Base.clearIfSet (Base.timeout pr)
              ++ [Base.Call (Base.reject pr)
                            (if truthy error then error
                             else Base.rejectedError id)],
            Base.withPending s (Base.delete (Base.pendingRequests s) id)))
  /\ (forall first,
         (exists v, first = Base.Resolve id v \/ first = Base.Reject id v) ->
         forall later v,
           let s' := snd (Base.performAll (snd (Base.perform s first)) later) in
           Base.resolvePendingRequest s' id v = ([], s')
           /\ Base.rejectPendingRequest s' id v = ([], s')).
Proof.
  intro Hget. split; [|split].
  - intro data. unfold Base.resolvePendingRequest. now rewrite Hget.
  - intro error. unfold Base.rejectPendingRequest. now rewrite Hget.
  - intros first [v0 Hfirst] later v s'.
    assert (Hgone : Base.get (Base.pendingRequests s') id = None).
    { subst s'. apply performAll_absent.
      destruct Hfirst as [-> | ->]; simpl.
      + unfold Base.resolvePendingRequest. rewrite Hget. simpl.
        apply get_delete_same.
      + unfold Base.rejectPendingRequest. rewrite Hget. simpl.
        apply get_delete_same. }
    unfold Base.resolvePendingRequest, Base.rejectPendingRequest.
    now rewrite Hgone.
Qed.

Lemma C4_settled_at_most_once_witness :
  Base.resolvePendingRequest Scenario.waiting "V1StGXR8" (VBool true)
  = ([Base.ClearTimeout 3; Base.Call 10 (VBool true)],
     Base.withPending Scenario.waiting [])
  /\ Base.rejectPendingRequest
       (snd (Base.resolvePendingRequest Scenario.waiting "V1StGXR8" (VBool true)))
       "V1StGXR8" (VError "late")
     = ([], snd (Base.resolvePendingRequest Scenario.waiting "V1StGXR8"
                                            (VBool true))).
Proof.
  pose proof (C4_settled_at_most_once Scenario.waiting "V1StGXR8"
                {| Base.resolve := 10; Base.reject := 11;
                   Base.timeout := Some 3 |} eq_refl) as [Hres [_ Hlate]].
  split.
  - exact (Hres (VBool true)).
  - exact (proj2 (Hlate (Base.Resolve "V1StGXR8" (VBool true))
                        (ex_intro _ (VBool true) (or_introl eq_refl))
                        [] (VError "late"))).
Defined.

(** C7 — [dropAllPendingRequests] with N pending entries does, for each
    entry in turn, a [clearTimeout] of the entry's timer (when it has one)
    and one call of its reject continuation with
    [Error(`Request ${id} has been reject`)], N calls in all, and leaves the
    table empty; [destroy] is exactly this bulk drop; a second call, or a
    call on an empty table, does nothing and changes nothing. *)
Theorem C7_dropAll {K : Type} (s : Base.BaseIpcService K) :
  Base.dropAllPendingRequests s
  = (flat_map
       (fun kv =>
          match Base.timeout (snd kv) with
          | Some t => [Base.ClearTimeout t]
          | None => []
          end
            ++ [Base.Call (Base.reject (snd kv))
                          (VError ("Request " ++ fst kv ++ " has been reject"))])
       (Base.pendingRequests s),
     Base.withPending s [])
  /\ (forall id pr t,
         In (id, pr) (Base.pendingRequests s) -> Base.timeout pr = Some t ->
         In (Base.ClearTimeout t) (fst (Base.dropAllPendingRequests s)))
  /\ Base.calls (fst (Base.dropAllPendingRequests s))
     = map (fun kv =>
              (Base.reject (snd kv),
               VError ("Request " ++ fst kv ++ " has been reject")))
           (Base.pendingRequests s)
  /\ length (Base.calls (fst (Base.dropAllPendingRequests s)))
     = length (Base.pendingRequests s)
  /\ Base.pendingRequests (snd (Base.dropAllPendingRequests s)) = []
  /\ Base.destroy s = Base.dropAllPendingRequests s
  /\ Base.dropAllPendingRequests (snd (Base.dropAllPendingRequests s))
     = ([], snd (Base.dropAllPendingRequests s))
  /\ Base.dropAllPendingRequests (Base.withPending s [])
     = ([], Base.withPending s []).
Proof.
  rewrite dropAll_spec. simpl.
  split; [reflexivity|].
  split.
  { intros id pr t Hin Ht. apply in_flat_map. exists (id, pr).
    split; [exact Hin|]. unfold Base.rejection. simpl. rewrite Ht. now left. }
  split; [apply calls_rejections|].
  split; [rewrite calls_rejections; apply length_map|].
  split; [reflexivity|].
  split; [apply dropAll_spec|].
  split; apply (dropAll_spec (Base.withPending s [])).
Qed.

Lemma C7_dropAll_witness :
  Base.dropAllPendingRequests Scenario.queue
  = ([ Base.ClearTimeout 3;
       Base.Call 11 (VError "Request V1StGXR8 has been reject");
       Base.ClearTimeout 4;
       Base.Call 21 (VError "Request Z5jdHi6B has been reject");
       Base.Call 31 (VError "Request myT9wLfk has been reject") ],
     Base.withPending Scenario.queue [])
  /\ Base.dropAllPendingRequests
       (snd (Base.dropAllPendingRequests Scenario.queue))
     = ([], Base.withPending Scenario.queue []).
Proof.
  split.
  - exact (eq_trans (proj1 (C7_dropAll Scenario.queue)) eq_refl).
  - exact (eq_trans
             (proj1 (proj2 (proj2 (proj2 (proj2 (proj2 (proj2
                (C7_dropAll Scenario.queue))))))))
             eq_refl).
Defined.

(** ** Channel names *)

(** C8 — [wrapChannel] is a function of the configured prefix and of its
    argument only, and the naming scheme is injective: under one prefix,
    two different (role, operation) pairs never get the same channel name,
    be they two operations of one role or an internal control channel and
    an external user channel. *)
Theorem C8_channel_names_injective {K K' : Type}
        (s : Base.BaseIpcService K) (s' : Base.BaseIpcService K')
        (r1 r2 : IpcChannelType.t) (o1 o2 : string) :
  Base.ipcChannelPrefix (Base.options s)
  = Base.ipcChannelPrefix (Base.options s') ->
  (r1, o1) <> (r2, o2) ->
  Base.wrapChannel s (scoped r1 o1) <> Base.wrapChannel s' (scoped r2 o2).
Proof.
  intros Hprefix Hne Heq. unfold Base.wrapChannel in Heq.
  rewrite <- Hprefix in Heq.
  apply append_cancel_l, scoped_inj in Heq.
  destruct Heq as [-> ->]. now apply Hne.
Qed.

Lemma C8_channel_names_injective_witness :
  Base.wrapChannel (Main.service Scenario.hub)
                   (scoped IpcChannelType.Internal "send-to")
  <> Base.wrapChannel Scenario.peer (scoped IpcChannelType.External "send-to").
Proof.
  apply (C8_channel_names_injective (Main.service Scenario.hub) Scenario.peer
           IpcChannelType.Internal IpcChannelType.External
           "send-to" "send-to").
  - reflexivity.
  - discriminate.
Defined.

(** C9 (as stated) — the channel the hub registers for forwarded requests is
    not [internal:forward-to-peer]: with the default prefix, and with an
    empty one, the three names differ from the three names of the claim. *)
Lemma C9_forward_channel_is_not_forward_to_peer :
  map (fun r => fst (fst r)) (Main.init (Main.service Scenario.hub))
  <> map (Base.wrapChannel (Main.service Scenario.hub))
         ["internal:forward-to-peer"; "internal:reply-to"; "internal:send-to"]
  /\ map (fun r => fst (fst r))
         (Main.init (Base.create
                       (Some {| Base.ipcChannelPrefix := Some "";
                                Base.pendingRequestTimeout := None |})
                       Scenario.nanoid))
     <> ["internal:forward-to-peer"; "internal:reply-to"; "internal:send-to"].
Proof.
  split; vm_compute; discriminate.
Qed.

(** C9 (amended) — the hub listens on exactly three control channels, named
    [internal:invoke-to] (request/acknowledge), [internal:reply-to] and
    [internal:send-to] (both fire-and-forget) behind the configured prefix,
    which by default gives [ipc-service:internal:invoke-to] and so on. *)
Theorem C9_control_channels (s : Base.BaseIpcService Main.continuation) :
  Main.init s
  = [ (Base.wrapChannel s "internal:invoke-to", Main.Handle, Main.InvokeTo);
      (Base.wrapChannel s "internal:reply-to", Main.On, Main.ReplyTo);
      (Base.wrapChannel s "internal:send-to", Main.On, Main.SendTo) ]
  /\ map (fun r => fst (fst r)) (Main.init (Main.service Scenario.hub))
     = [ "ipc-service:internal:invoke-to";
         "ipc-service:internal:reply-to";
         "ipc-service:internal:send-to" ].
Proof.
  split; reflexivity.
Qed.

(** ** Calls raced against a timer *)

Lemma settle_settled (p : promise) (s : settlement) :
  p <> None -> settle p s = p.
Proof. destruct p; [reflexivity | congruence]. Qed.

Lemma step_settled (x : Race) (ev : tick) :
  result x <> None -> result (step x ev) = result x.
Proof.
  intro H. destruct ev as [|s]; simpl.
  - destruct (timer x) as [[d e]|]; simpl; [now apply settle_settled | reflexivity].
  - now apply settle_settled.
Qed.

Lemma step_timer (x : Race) (ev : tick) : timer (step x ev) = timer x.
Proof.
  destruct ev; simpl; [destruct (timer x) as [[d e]|] eqn:E|]; simpl; auto.
Qed.

Lemma run_cons (x : Race) (ev : tick) (evs : list tick) :
  run x (ev :: evs) = run (step x ev) evs.
Proof. reflexivity. Qed.

Lemma run_timer (evs : list tick) (x : Race) : timer (run x evs) = timer x.
Proof.
  revert x. induction evs as [|ev evs IH]; intro x; [reflexivity|].
  now rewrite run_cons, IH, step_timer.
Qed.

(** A settled promise stays as it is, whatever arrives later. *)
Lemma run_settled (evs : list tick) (x : Race) :
  result x <> None -> result (run x evs) = result x.
Proof.
  revert x. induction evs as [|ev evs IH]; intros x H; [reflexivity|].
  rewrite run_cons, IH; rewrite step_settled; auto.
Qed.

(** Without a timer, the awaited promise settles as the underlying
    operation does. *)
Lemma run_no_timer (evs : list tick) (x : Race) :
  timer x = None -> result x = None -> result (run x evs) = firstSettled evs.
Proof.
  revert x. induction evs as [|ev evs IH]; intros x Ht Hr; [exact Hr|].
  rewrite run_cons. destruct ev as [|s]; simpl.
  - rewrite Ht. now apply IH.
  - rewrite run_settled; simpl; rewrite Hr; simpl; congruence.
Qed.

Lemma timerDelay_le (T : Z) : (0 < T)%Z -> (1 <= timerDelay T <= T)%Z.
Proof.
  intro H. unfold timerDelay.
  destruct ((1 <=? T) && (T <=? 2147483647))%Z; lia.
Qed.

Lemma timerDelay_same (T : Z) :
  (0 < T)%Z -> (T <= 2147483647)%Z -> timerDelay T = T.
Proof.
  intros H1 H2. unfold timerDelay.
  rewrite (proj2 (Z.leb_le 1 T)) by lia.
  now rewrite (proj2 (Z.leb_le T 2147483647) H2).
Qed.

(** C5 — A direct [invoke] with a positive timeout [T] whose reply arrives
    after [T]: from [T] on the caller's promise is rejected with
    [Error('Invoke function timed out')]; the reply that arrives afterwards
    is delivered to a settled promise and changes nothing.  (For a [T] that
    [setTimeout] takes as it is, up to 2147483647, the promise is pending
    before [T].) *)
Theorem C5_invoke_times_out {K : Type} (this : Base.BaseIpcService K)
        (channel : string) (options : RequestOptions) (T r : Z)
        (s : settlement) :
  timeout options = Some T -> (0 < T)%Z -> (T < r)%Z ->
  let call := snd (Renderer.invoke this channel (Some options)) in
  (forall now, (T <= 2147483647)%Z -> (now < T)%Z ->
               observe call (Some (r, s)) now = None)
  /\ (forall now, (T <= now)%Z ->
                  observe call (Some (r, s)) now
                  = Some (Rejected (VError "Invoke function timed out")))
  /\ step (run call [TimerFired]) (Settled s) = run call [TimerFired]
  /\ (forall later,
         result (run call (TimerFired :: later))
         = Some (Rejected (VError "Invoke function timed out"))).
Proof.
  intros Hopt Hpos Hlate call.
  assert (Hcall : call = {| timer := Some (T, Renderer.invokeTimedOut);
                            result := None |}).
  { subst call. unfold Renderer.invoke. simpl. rewrite Hopt.
    now rewrite (proj2 (Z.ltb_lt 0 T) Hpos). }
  rewrite Hcall. unfold observe, schedule. simpl.
  pose proof (timerDelay_le T Hpos) as Hd.
  assert (Hrd : (r <=? timerDelay T)%Z = false) by (apply Z.leb_gt; lia).
  rewrite Hrd.
  split; [|split; [|split]].
  - intros now Hrange Hnow. unfold elapsed. simpl.
    rewrite (timerDelay_same T Hpos Hrange).
    rewrite (proj2 (Z.leb_gt T now) Hnow).
    assert (Hr : (r <=? now)%Z = false) by (apply Z.leb_gt; lia).
    now rewrite Hr.
  - intros now Hnow. unfold elapsed. simpl.
    assert (Ht : (timerDelay T <=? now)%Z = true) by (apply Z.leb_le; lia).
    rewrite Ht. destruct (r <=? now)%Z; reflexivity.
  - reflexivity.
  - intro later.
    change (result (run (step {| timer := Some (T, Renderer.invokeTimedOut);
                                 result := None |} TimerFired) later)
            = Some (Rejected (VError "Invoke function timed out"))).
    rewrite run_settled; simpl; [reflexivity | discriminate].
Qed.

Lemma C5_invoke_times_out_witness :
  observe (snd (Renderer.invoke Scenario.peer "slow" (Some Scenario.slow)))
          (Some (200%Z, Fulfilled (VBool true))) 200%Z
  = Some (Rejected (VError "Invoke function timed out")).
Proof.
  refine (proj1 (proj2 (C5_invoke_times_out Scenario.peer "slow" Scenario.slow
                          50%Z 200%Z (Fulfilled (VBool true)) eq_refl _ _))
                200%Z _);
    first [reflexivity | discriminate].
Defined.

(** C10 — With a timeout that is zero, negative or left out, neither
    [invoke] nor [processFunction] installs a timer, and the promise they
    return settles exactly as the underlying operation does: timer events
    never reach it, so it is rejected with a timed-out error only if the
    operation itself rejects with one. *)
Theorem C10_no_race_without_positive_timeout {K A : Type}
        (this : Base.BaseIpcService K) (channel : string)
        (options : option RequestOptions)
        (fn : A -> Fn.behaviour) (data : A) (limit : option Z) :
  notPositive (match options with Some o => timeout o | None => None end) ->
  notPositive limit ->
  let call := snd (Renderer.invoke this channel options) in
  let execution := Fn.processFunction fn data limit in
  timer call = None
  /\ (forall evs, result (run call evs) = firstSettled evs)
  /\ timer execution = None
  /\ (forall evs,
         result (run execution evs)
         = match fn data with
           | Fn.Throws e => Some (Rejected e)
           | Fn.Returns v => Some (Fulfilled v)
           | Fn.Awaitable => firstSettled evs
           end).
Proof.
  intros Hopt Hlimit call execution.
  assert (Hcall : call = {| timer := None; result := None |}).
  { subst call. unfold Renderer.invoke. simpl.
    destruct options as [o|]; simpl in *; [|reflexivity].
    destruct (timeout o) as [t|]; simpl in *; [|reflexivity].
    now rewrite (proj2 (Z.ltb_ge 0 t) Hopt). }
  assert (Hinst : (0 <? match limit with Some t => t | None => 0 end)%Z = false).
  { destruct limit as [t|]; simpl in *; [now apply Z.ltb_ge | reflexivity]. }
  subst execution. unfold Fn.processFunction. rewrite Hinst, Hcall.
  split; [reflexivity|]. split.
  - intro evs. now apply run_no_timer.
  - split.
    + destruct (fn data); reflexivity.
    + intro evs. destruct (fn data).
      * rewrite run_settled; simpl; [reflexivity | discriminate].
      * rewrite run_settled; simpl; [reflexivity | discriminate].
      * now apply run_no_timer.
Qed.

Lemma C10_no_race_without_positive_timeout_witness :
  result (run (snd (Renderer.invoke Scenario.peer "ping" None))
              [TimerFired; Settled (Fulfilled (VBool true))])
  = Some (Fulfilled (VBool true))
  /\ result (run (Fn.processFunction (fun _ : unit => Fn.Awaitable) tt
                                     (Some (-1)%Z))
                 [TimerFired; Settled (Rejected (VError "boom"))])
     = Some (Rejected (VError "boom")).
Proof.
  pose proof (C10_no_race_without_positive_timeout Scenario.peer "ping" None
                (fun _ : unit => Fn.Awaitable) tt (Some (-1)%Z) I
                ltac:(discriminate)) as [_ [Hcall [_ Hexec]]].
  split.
  - exact (Hcall [TimerFired; Settled (Fulfilled (VBool true))]).
  - exact (Hexec [TimerFired; Settled (Rejected (VError "boom"))]).
Defined.

(** ** Wrapped listeners *)

(** When the awaited promise is settled at the end of a run of events. *)
Lemma run_settles (evs : list tick) (x : Race) :
  result x <> None
  \/ (exists s, In (Settled s) evs)
  \/ (timer x <> None /\ In TimerFired evs) ->
  result (run x evs) <> None.
Proof.
  revert x. induction evs as [|ev evs IH]; intros x H.
  - destruct H as [H | [[s []] | [_ []]]]. exact H.
  - rewrite run_cons. destruct H as [H | [[s [Hs | Hs]] | [Ht [Hf | Hf]]]].
    + apply IH. left. now rewrite step_settled.
    + subst ev. apply IH. left. simpl. destruct (result x); discriminate.
    + apply IH. right. left. now exists s.
    + subst ev. apply IH. left. simpl.
      destruct (timer x) as [[d e]|]; [|congruence].
      simpl. destruct (result x); discriminate.
    + apply IH. right. right. now rewrite step_timer.
Qed.

Section WrappedListener.

Context {K : Type}.
Variable this : Base.BaseIpcService K.

Lemma replies_length (id : option string) (p : promise) :
  length (Renderer.replies this id p)
  = match p with Some _ => 1 | None => 0 end.
Proof. destruct p; reflexivity. Qed.

Let inStep := Renderer.inStep this.

Lemma resume_inStep (h : Renderer.Handling) (ev : tick) :
  inStep h -> inStep (Renderer.resume this h ev).
Proof.
  unfold inStep, Renderer.inStep, Renderer.resume. intro H.
  destruct (result (Renderer.execution h)) as [s|] eqn:E; simpl.
  - rewrite step_settled, E; [exact H | congruence].
  - rewrite H. reflexivity.
Qed.

Lemma resume_execution (h : Renderer.Handling) (ev : tick) :
  Renderer.execution (Renderer.resume this h ev)
  = step (Renderer.execution h) ev
  /\ Renderer.tagged (Renderer.resume this h ev) = Renderer.tagged h.
Proof.
  unfold Renderer.resume.
  destruct (result (Renderer.execution h)); split; reflexivity.
Qed.

Lemma resumed (evs : list tick) (h : Renderer.Handling) :
  inStep h ->
  inStep (fold_left (Renderer.resume this) evs h)
  /\ Renderer.execution (fold_left (Renderer.resume this) evs h)
     = run (Renderer.execution h) evs
  /\ Renderer.tagged (fold_left (Renderer.resume this) evs h)
     = Renderer.tagged h.
Proof.
  revert h. induction evs as [|ev evs IH]; intros h H; simpl.
  - repeat split. exact H.
  - destruct (IH _ (resume_inStep h ev H)) as [H1 [H2 H3]].
    destruct (resume_execution h ev) as [E1 E2].
    rewrite H2, H3, E1, E2. repeat split. exact H1.
Qed.

Lemma handling_spec (listener : Renderer.Listener)
      (args : Renderer.ListenerArgs) (evs : list tick) :
  Renderer.sent (Renderer.handling this listener args evs)
  = Renderer.replies this (requestId (snd args))
      (result (run (Fn.processFunction (Renderer.apply listener) args
                                       (budget (snd args))) evs)).
Proof.
  unfold Renderer.handling.
  assert (H0 : inStep (Renderer.wrapListener this listener args)).
  { destruct args as [[event data] options]. reflexivity. }
  destruct (resumed evs _ H0) as [H1 [H2 H3]].
  unfold inStep, Renderer.inStep in H1. rewrite H1, H2, H3.
  destruct args as [[event data] options]. reflexivity.
Qed.

End WrappedListener.

Lemma run_firstOutcome (evs : list tick) (d : Z) (error : value) :
  result (run {| timer := Some (d, error); result := None |} evs)
  = firstOutcome true error evs.
Proof.
  destruct evs as [|[|s] evs]; [reflexivity| |];
    rewrite run_cons, run_settled; simpl;
    first [reflexivity | discriminate].
Qed.

Lemma firstOutcome_untimed (error : value) (evs : list tick) :
  firstOutcome false error evs = firstSettled evs.
Proof.
  induction evs as [|[|s] evs IH]; simpl; auto.
Qed.

Lemma firstSettled_none (evs : list tick) :
  (forall s, ~ In (Settled s) evs) -> firstSettled evs = None.
Proof.
  induction evs as [|[|s] evs IH]; intro Hnone; simpl; [reflexivity| |].
  - apply IH. intros s H. apply (Hnone s). now right.
  - elim (Hnone s). now left.
Qed.

(** C6 (as stated) — a handler is not bounded when the metadata's timeout is
    not positive, and then it may never reply.  A wrapped listener invoked
    with [{ requestId: 'V1StGXR8', webContentsId: 1, timeout: 0 }] whose
    handler returns an awaitable that never settles has sent nothing when it
    is suspended, and sends nothing afterwards, whatever timers fire. *)
Lemma C6_unbounded_handler_never_replies :
  Renderer.sent
    (Renderer.wrapListener Scenario.peer (fun _ _ _ => Fn.Awaitable)
       (Renderer.ipcRendererEvent, Some [VNum 7],
        {| requestId := Some "V1StGXR8"; callerId := 1%Z;
           budget := Some 0%Z |}))
  = []
  /\ (forall evs,
         (forall s, ~ In (Settled s) evs) ->
         Renderer.sent
           (Renderer.handling Scenario.peer (fun _ _ _ => Fn.Awaitable)
              (Renderer.ipcRendererEvent, Some [VNum 7],
               {| requestId := Some "V1StGXR8"; callerId := 1%Z;
                  budget := Some 0%Z |})
              evs)
         = []).
Proof.
  split; [reflexivity|].
  intros evs Hnone. rewrite handling_spec.
  change (Fn.processFunction
            (Renderer.apply (fun _ _ _ => Fn.Awaitable))
            (Renderer.ipcRendererEvent, Some [VNum 7],
             {| requestId := Some "V1StGXR8"; callerId := 1%Z;
                budget := Some 0%Z |})
            (budget (snd (Renderer.ipcRendererEvent, Some [VNum 7],
                          {| requestId := Some "V1StGXR8"; callerId := 1%Z;
                             budget := Some 0%Z |}))))
    with {| timer := None; result := None |}.
  rewrite run_no_timer by reflexivity.
  now rewrite (firstSettled_none evs Hnone).
Qed.

(** C6 (amended) — Every handler registered via [handle] or [handleOnce] on
    a renderer sends, on each invocation, at most one reply message, on the
    reply-to channel, tagged with the [requestId] of the metadata, and sends
    it when its execution ends.  A handler that throws is answered at once
    with the error it threw, one that returns a plain value with that value.
    A handler that returns an awaitable is answered with the awaitable's
    settlement, result or error; under a positive metadata timeout, if the
    timer fires before, it is answered with
    [Error('Process function timed out')] instead.  A reply carries a result
    or an error, never both.  The execution is bounded only by a positive
    timeout: under a zero, negative or absent one, a handler whose awaitable
    never settles is never answered. *)
Theorem C6_reply_follows_the_handler {K : Type} (this : Base.BaseIpcService K)
        (listener : Renderer.Listener) (event : Renderer.IpcRendererEvent)
        (data : option (list value)) (options : RelayMeta) :
  let sentAfter evs :=
    Renderer.sent
      (Renderer.handling this listener (event, data, options) evs) in
  let message body :=
    {| Renderer.via := Renderer.Send;
       Renderer.channel := Base.wrapChannel this "internal:reply-to";
       Renderer.body := body |} in
  let withResult v :=
    message (Renderer.Reply (requestId options) v VUndefined) in
  let withError e :=
    message (Renderer.Reply (requestId options) VUndefined e) in
  let timed :=
    match budget options with
    | Some T => (0 <? T)%Z
    | None => false
    end in
  (forall evs, length (sentAfter evs) <= 1)
  /\ (forall e, listener event data options = Fn.Throws e ->
                forall evs, sentAfter evs = [withError e])
  /\ (forall v, listener event data options = Fn.Returns v ->
                forall evs, sentAfter evs = [withResult v])
  /\ (listener event data options = Fn.Awaitable ->
      forall evs,
        sentAfter evs
        = match firstOutcome timed (VError "Process function timed out") evs
          with
          | Some (Fulfilled v) => [withResult v]
          | Some (Rejected e) => [withError e]
          | None => []
          end)
  /\ (listener event data options = Fn.Awaitable -> timed = false ->
      forall evs, (forall s, ~ In (Settled s) evs) -> sentAfter evs = []).
Proof.
  intros sentAfter message withResult withError timed.
  set (x := Fn.processFunction (Renderer.apply listener)
                               (event, data, options) (budget options)).
  assert (Hspec : forall evs,
             sentAfter evs
             = Renderer.replies this (requestId options) (result (run x evs))).
  { intro evs. subst sentAfter. simpl. now rewrite handling_spec. }
  assert (Hawait : listener event data options = Fn.Awaitable ->
                   forall evs,
                     result (run x evs)
                     = firstOutcome timed (VError "Process function timed out")
                                    evs).
  { intros Hl evs. subst x timed. unfold Fn.processFunction. simpl.
    rewrite Hl. destruct (budget options) as [T|]; simpl.
    - destruct (0 <? T)%Z.
      + apply run_firstOutcome.
      + rewrite firstOutcome_untimed. now apply run_no_timer.
    - rewrite firstOutcome_untimed. now apply run_no_timer. }
  split; [|split; [|split; [|split]]].
  - intro evs. rewrite Hspec, replies_length.
    destruct (result (run x evs)); auto.
  - intros e Hl evs. rewrite Hspec. subst x. unfold Fn.processFunction.
    simpl. rewrite Hl. rewrite run_settled; simpl;
      [reflexivity | discriminate].
  - intros v Hl evs. rewrite Hspec. subst x. unfold Fn.processFunction.
    simpl. rewrite Hl. rewrite run_settled; simpl;
      [reflexivity | discriminate].
  - intros Hl evs. rewrite Hspec, (Hawait Hl).
    destruct (firstOutcome timed _ evs) as [[v|e]|]; reflexivity.
  - intros Hl Ht evs Hnone. rewrite Hspec, (Hawait Hl), Ht.
    rewrite firstOutcome_untimed. now rewrite (firstSettled_none evs Hnone).
Qed.

Lemma C6_reply_follows_the_handler_witness :
  let meta :=
    {| requestId := Some "V1StGXR8"; callerId := 1%Z;
       budget := Some 5000%Z |} in
  let message body :=
    {| Renderer.via := Renderer.Send;
       Renderer.channel := "ipc-service:internal:reply-to";
       Renderer.body := body |} in
  Renderer.sent
    (Renderer.handling Scenario.peer (fun _ _ _ => Fn.Awaitable)
       (Renderer.ipcRendererEvent, Some [VNum 7], meta)
       [Settled (Fulfilled (VBool true)); TimerFired])
  = [message (Renderer.Reply (Some "V1StGXR8") (VBool true) VUndefined)]
  /\ Renderer.sent
       (Renderer.handling Scenario.peer (fun _ _ _ => Fn.Awaitable)
          (Renderer.ipcRendererEvent, Some [VNum 7], meta)
          [TimerFired; Settled (Fulfilled (VBool true))])
     = [message (Renderer.Reply (Some "V1StGXR8") VUndefined
                                (VError "Process function timed out"))]
  /\ Renderer.sent
       (Renderer.handling Scenario.peer
          (fun _ _ _ => Fn.Throws (VError "boom"))
          (Renderer.ipcRendererEvent, Some [VNum 7], meta) [TimerFired])
     = [message (Renderer.Reply (Some "V1StGXR8") VUndefined (VError "boom"))]
  /\ Renderer.sent
       (Renderer.handling Scenario.peer
          (fun _ _ _ => Fn.Returns (VNum 42))
          (Renderer.ipcRendererEvent, Some [VNum 7], meta) [TimerFired])
     = [message (Renderer.Reply (Some "V1StGXR8") (VNum 42) VUndefined)].
Proof.
  split; [|split; [|split]].
  - exact (proj1 (proj2 (proj2 (proj2
             (C6_reply_follows_the_handler Scenario.peer
                (fun _ _ _ => Fn.Awaitable) Renderer.ipcRendererEvent
                (Some [VNum 7])
                {| requestId := Some "V1StGXR8"; callerId := 1%Z;
                   budget := Some 5000%Z |}))))
             eq_refl [Settled (Fulfilled (VBool true)); TimerFired]).
  - exact (proj1 (proj2 (proj2 (proj2
             (C6_reply_follows_the_handler Scenario.peer
                (fun _ _ _ => Fn.Awaitable) Renderer.ipcRendererEvent
                (Some [VNum 7])
                {| requestId := Some "V1StGXR8"; callerId := 1%Z;
                   budget := Some 5000%Z |}))))
             eq_refl [TimerFired; Settled (Fulfilled (VBool true))]).
  - exact (proj1 (proj2
             (C6_reply_follows_the_handler Scenario.peer
                (fun _ _ _ => Fn.Throws (VError "boom"))
                Renderer.ipcRendererEvent (Some [VNum 7])
                {| requestId := Some "V1StGXR8"; callerId := 1%Z;
                   budget := Some 5000%Z |}))
             (VError "boom") eq_refl [TimerFired]).
  - exact (proj1 (proj2 (proj2
             (C6_reply_follows_the_handler Scenario.peer
                (fun _ _ _ => Fn.Returns (VNum 42))
                Renderer.ipcRendererEvent (Some [VNum 7])
                {| requestId := Some "V1StGXR8"; callerId := 1%Z;
                   budget := Some 5000%Z |})))
             (VNum 42) eq_refl [TimerFired]).
Defined.

(** ** The hub *)

Section Hub.

Variable w : Main.Electron.
Implicit Types (st : Main.State) (e : Base.effect Main.continuation).

(** *** What the base-class methods leave alone *)

Lemma applyEffect_frame st e :
  Main.returned (Main.applyEffect st e) = Main.returned st
  /\ Main.forwarded (Main.applyEffect st e) = Main.forwarded st
  /\ Main.uncaught (Main.applyEffect st e) = Main.uncaught st
  /\ Main.service (Main.applyEffect st e) = Main.service st.
Proof.
  destruct e as [t|[n|n] v]; simpl; auto;
    unfold Main.settlePromise; destruct (Main.suspended _ n); auto.
Qed.

Lemma applyEffects_frame (l : list (Base.effect Main.continuation)) st :
  Main.returned (fold_left Main.applyEffect l st) = Main.returned st
  /\ Main.forwarded (fold_left Main.applyEffect l st) = Main.forwarded st
  /\ Main.uncaught (fold_left Main.applyEffect l st) = Main.uncaught st
  /\ Main.service (fold_left Main.applyEffect l st) = Main.service st.
Proof.
  revert st. induction l as [|e l IH]; intro st; simpl; auto.
  destruct (IH (Main.applyEffect st e)) as [H1 [H2 [H3 H4]]].
  destruct (applyEffect_frame st e) as [E1 [E2 [E3 E4]]].
  rewrite H1, H2, H3, H4. auto.
Qed.

Lemma lift_frame st r :
  Main.returned (Main.lift st r) = Main.returned st
  /\ Main.forwarded (Main.lift st r) = Main.forwarded st
  /\ Main.uncaught (Main.lift st r) = Main.uncaught st
  /\ Main.service (Main.lift st r) = snd r.
Proof.
  unfold Main.lift.
  destruct (applyEffects_frame (fst r) (Main.withService st (snd r)))
    as [H1 [H2 [H3 H4]]].
  rewrite H1, H2, H3, H4. auto.
Qed.

Lemma catchInvokeTo_frame st n id error :
  Main.returned (Main.catchInvokeTo st n id error)
  = Main.returned st ++ [(n, Fulfilled VUndefined)]
  /\ Main.forwarded (Main.catchInvokeTo st n id error) = Main.forwarded st
  /\ Main.uncaught (Main.catchInvokeTo st n id error) = Main.uncaught st.
Proof.
  unfold Main.catchInvokeTo. simpl.
  destruct (lift_frame st (Base.rejectPendingRequest (Main.service st) id error))
    as [H1 [H2 [H3 _]]].
  rewrite H1, H2, H3. auto.
Qed.

Local Abbreviation answers := Main.answers.
Local Abbreviation quiet := Main.quiet.

Lemma unchanged_answers st st' :
  Main.returned st' = Main.returned st -> answers st st'.
Proof.
  intro H. exists []. split; [now rewrite app_nil_r | constructor].
Qed.

Lemma answers_trans st1 st2 st3 :
  answers st1 st2 -> answers st2 st3 -> answers st1 st3.
Proof.
  intros [x1 [E1 F1]] [x2 [E2 F2]].
  exists (x1 ++ x2). split.
  - now rewrite E2, E1, app_assoc.
  - apply Forall_app; auto.
Qed.

Lemma quiet_trans st1 st2 st3 : quiet st1 st2 -> quiet st2 st3 -> quiet st1 st3.
Proof. intros [A B] [C D]. split; congruence. Qed.

Lemma lift_answers st r : answers st (Main.lift st r).
Proof. apply unchanged_answers, lift_frame. Qed.

Lemma lift_quiet st r : quiet st (Main.lift st r).
Proof. destruct (lift_frame st r) as [_ [H2 [H3 _]]]. now split. Qed.

Lemma catchInvokeTo_answers st n id error :
  answers st (Main.catchInvokeTo st n id error).
Proof.
  destruct (catchInvokeTo_frame st n id error) as [H1 _].
  exists [(n, Fulfilled VUndefined)]. split; [exact H1|].
  constructor; [now exists VUndefined | constructor].
Qed.

Lemma catchInvokeTo_quiet st n id error :
  quiet st (Main.catchInvokeTo st n id error).
Proof. destruct (catchInvokeTo_frame st n id error) as [_ H]. exact H. Qed.

Lemma continue_answers st m : answers st (Main.continue st m).
Proof.
  unfold Main.continue. destruct (Main.outcome m) as [v|e].
  - exists [(Main.invocation m, Fulfilled v)].
    split; [reflexivity|]. constructor; [now exists v | constructor].
  - apply catchInvokeTo_answers.
Qed.

Lemma continue_quiet st m : quiet st (Main.continue st m).
Proof.
  unfold Main.continue. destruct (Main.outcome m) as [v|e].
  - now split.
  - apply catchInvokeTo_quiet.
Qed.

Lemma drain_answers rounds st : answers st (Main.drain rounds st).
Proof.
  revert st. induction rounds as [|k IH]; intro st; simpl.
  - now apply unchanged_answers.
  - destruct (Main.microtasks st) as [|m rest] eqn:E.
    + now apply unchanged_answers.
    + eapply answers_trans; [|apply IH].
      eapply answers_trans; [|apply continue_answers].
      now apply unchanged_answers.
Qed.

Lemma drain_quiet rounds st : quiet st (Main.drain rounds st).
Proof.
  revert st. induction rounds as [|k IH]; intro st; simpl.
  - now split.
  - destruct (Main.microtasks st) as [|m rest] eqn:E.
    + now split.
    + eapply quiet_trans; [|apply IH].
      eapply quiet_trans; [|apply continue_quiet]. now split.
Qed.

(** Whatever the hub receives, every answer it gives to a caller of
    invoke-to is a fulfilment: no path of the handler rejects. *)
Lemma handleInvokeTo_answers st sender channel options :
  answers st (Main.handleInvokeTo w st sender channel options).
Proof.
  unfold Main.handleInvokeTo. simpl.
  destruct (Main.resolveTarget w _ options) as [id|error].
  - destruct (Main.sendError w _); simpl; now apply unchanged_answers.
  - eapply answers_trans; [|apply catchInvokeTo_answers].
    now apply unchanged_answers.
Qed.

Lemma task_answers st ev : answers st (Main.task w st ev).
Proof.
  destruct ev as [sender channel options|rid responseData error
                 |sender channel options|t|]; simpl.
  - apply handleInvokeTo_answers.
  - unfold Main.handleReplyTo. destruct rid as [id|].
    + destruct (truthy error); apply lift_answers.
    + now apply unchanged_answers.
  - apply unchanged_answers. unfold Main.handleSendTo.
    destruct (Main.resolveTarget w st options); [|reflexivity].
    destruct (Main.sendError w _); reflexivity.
  - unfold Main.fireTimer.
    destruct (find (fun p => Nat.eqb (fst p) t) (Main.timers st))
      as [[t' id]|];
      [|now apply unchanged_answers].
    apply unchanged_answers. simpl.
    now destruct (lift_frame (Main.clearTimeout st t)
                    (Base.rejectPendingRequest (Main.service st) id
                                               (VError "Request timeout")))
      as [-> _].
  - apply lift_answers.
Qed.

Lemma dispatch_answers st ev : answers st (Main.dispatch w st ev).
Proof.
  unfold Main.dispatch.
  eapply answers_trans; [apply task_answers | apply drain_answers].
Qed.

Lemma fulfilled_only (evs : list Main.event) st :
  Forall Main.fulfilled (Main.returned st) ->
  Forall Main.fulfilled (Main.returned (Main.runAll w st evs)).
Proof.
  revert st. induction evs as [|ev evs IH]; intros st H; simpl; [exact H|].
  apply IH. destruct (dispatch_answers st ev) as [extra [E F]].
  rewrite E. apply Forall_app; auto.
Qed.

(** *** Microtasks run to completion *)

Lemma applyEffect_queue st e :
length (Main.microtasks (Main.applyEffect st e))
<= length (Main.microtasks st)
   + match e with Base.Call _ _ => 1 | Base.ClearTimeout _ => 0 end.
Proof.
destruct e as [t|[n|n] v]; simpl; try lia;
  unfold Main.settlePromise; destruct (Main.suspended _ n); simpl;
  rewrite ?length_app; simpl; lia.
Qed.

Lemma settling_budget st (s : Base.BaseIpcService Main.continuation)
      (t : option Timer) (k : Main.continuation) (v : value) :
length (Base.pendingRequests s)
< length (Base.pendingRequests (Main.service st)) ->
Main.budgetOf (Main.lift st (Base.clearIfSet t ++ [Base.Call k v], s))
<= Main.budgetOf st.
Proof.
intro Hlt. unfold Main.budgetOf.
destruct (lift_frame st (Base.clearIfSet t ++ [Base.Call k v], s))
  as [_ [_ [_ ->]]].
unfold Main.lift. simpl. rewrite fold_left_app. simpl.
pose proof (applyEffect_queue
              (fold_left Main.applyEffect (Base.clearIfSet t)
                         (Main.withService st s))
              (Base.Call k v)) as Hq.
assert (Hc : Main.microtasks
               (fold_left Main.applyEffect (Base.clearIfSet t)
                          (Main.withService st s))
             = Main.microtasks st) by (destruct t; reflexivity).
rewrite Hc in Hq. simpl in Hq. lia.
Qed.

Lemma reject_budget st id error :
Main.budgetOf
  (Main.lift st (Base.rejectPendingRequest (Main.service st) id error))
<= Main.budgetOf st.
Proof.
unfold Base.rejectPendingRequest.
destruct (Base.get (Base.pendingRequests (Main.service st)) id) as [pr|] eqn:E.
- apply settling_budget. simpl. now apply delete_present_length with pr.
- unfold Main.lift, Main.budgetOf. simpl. now destruct st.
Qed.

Lemma continue_budget st m : Main.budgetOf (Main.continue st m) <= Main.budgetOf st.
Proof.
unfold Main.continue. destruct (Main.outcome m) as [v|e].
- apply Nat.le_refl.
- unfold Main.catchInvokeTo.
  exact (reject_budget st (Main.correlation m) e).
Qed.

Lemma drain_empties rounds st :
Main.budgetOf st <= rounds -> Main.microtasks (Main.drain rounds st) = [].
Proof.
revert st. induction rounds as [|k IH]; intros st H; simpl.
- unfold Main.budgetOf in H.
  destruct (Main.microtasks st); [reflexivity | simpl in H; lia].
- destruct (Main.microtasks st) as [|m rest] eqn:E; [exact E|].
  apply IH.
  pose proof (continue_budget (Main.withLoop st (Main.awaiting st) rest) m).
  unfold Main.budgetOf in *. rewrite E in H. simpl in *. lia.
Qed.

(** After every turn of the loop the microtask queue is empty. *)
Lemma dispatch_quiescent st ev : Main.microtasks (Main.dispatch w st ev) = [].
Proof. apply drain_empties, Nat.le_refl. Qed.

Lemma drain_idle rounds st : Main.microtasks st = [] -> Main.drain rounds st = st.
Proof. intro H. destruct rounds; simpl; [|rewrite H]; reflexivity. Qed.

(** *** Unresolved targets *)

Lemma resolveTarget_unresolved st options :
Main.nonzero (Main.targetWebContentsId st options) = None ->
Main.resolveTarget w st options = inr (VError "webContentsId is required").
Proof. unfold Main.resolveTarget. now intros ->. Qed.

(** With no usable target identifier the invoke-to handler forwards
    nothing and lets no error out; its caller is answered [undefined]. *)
Lemma handleInvokeTo_unresolved st sender channel options :
Main.nonzero (Main.targetWebContentsId st options) = None ->
let st' := Main.dispatch w st (Main.InvokeToMessage sender channel options) in
Main.forwarded st' = Main.forwarded st
/\ Main.uncaught st' = Main.uncaught st
/\ exists extra,
    Main.returned st'
    = Main.returned st
        ++ (Main.invocations st, Fulfilled VUndefined) :: extra.
Proof.
intros H st'. subst st'. unfold Main.dispatch.
set (st1 := Main.task w st (Main.InvokeToMessage sender channel options)).
assert (H1 : Main.forwarded st1 = Main.forwarded st
             /\ Main.uncaught st1 = Main.uncaught st
             /\ Main.returned st1
                = Main.returned st
                    ++ [(Main.invocations st, Fulfilled VUndefined)]).
{ subst st1. simpl. unfold Main.handleInvokeTo. simpl.
  unfold Main.resolveTarget, Main.targetWebContentsId in *. simpl.
  rewrite H.
  match goal with
  | |- context [Main.catchInvokeTo ?a ?b ?c ?d] =>
      destruct (catchInvokeTo_frame a b c d) as [R [F U]]
  end.
  rewrite R, F, U. auto. }
destruct H1 as [F1 [U1 R1]].
destruct (drain_quiet (Main.budgetOf st1) st1) as [F2 U2].
destruct (drain_answers (Main.budgetOf st1) st1) as [extra [R2 _]].
rewrite F2, U2, R2, R1, F1, U1. repeat split.
exists extra. now rewrite <- app_assoc.
Qed.

(** On the send-to path the same condition throws out of the listener. *)
Lemma handleSendTo_unresolved st sender channel options :
Main.nonzero (Main.targetWebContentsId st options) = None ->
let st' := Main.dispatch w st (Main.SendToMessage sender channel options) in
Main.forwarded st' = Main.forwarded st
/\ Main.uncaught st'
   = Main.uncaught st ++ [VError "webContentsId is required"].
Proof.
intros H st'. subst st'. unfold Main.dispatch.
set (st1 := Main.task w st (Main.SendToMessage sender channel options)).
assert (H1 : st1 = Main.withUncaught st
                     (Main.uncaught st ++ [VError "webContentsId is required"])).
{ subst st1. simpl. unfold Main.handleSendTo.
  now rewrite (resolveTarget_unresolved st options H). }
destruct (drain_quiet (Main.budgetOf st1) st1) as [F2 U2].
rewrite F2, U2, H1. simpl. now split.
Qed.

(** *** Routing by channel name *)

Lemma wrapChannel_prefix {K K' : Type} (s : Base.BaseIpcService K)
      (s' : Base.BaseIpcService K') (c : string) :
Base.ipcChannelPrefix (Base.options s) = Base.ipcChannelPrefix (Base.options s') ->
Base.wrapChannel s c = Base.wrapChannel s' c.
Proof. unfold Base.wrapChannel. now intros ->. Qed.

Lemma wrapChannel_differ {K : Type} (s : Base.BaseIpcService K) (a b : string) :
a <> b -> (Base.wrapChannel s a =? Base.wrapChannel s b) = false.
Proof.
intro H. apply String.eqb_neq. intro E. apply H.
unfold Base.wrapChannel in E. now apply append_cancel_l in E.
Qed.

Lemma route_invoke_to (s : Base.BaseIpcService Main.continuation) :
Main.route s (Base.wrapChannel s (scoped IpcChannelType.Internal "invoke-to"))
= Some Main.InvokeTo.
Proof. unfold Main.route, Main.init. simpl. now rewrite String.eqb_refl. Qed.

Lemma route_reply_to (s : Base.BaseIpcService Main.continuation) :
Main.route s (Base.wrapChannel s (scoped IpcChannelType.Internal "reply-to"))
= Some Main.ReplyTo.
Proof.
unfold Main.route, Main.init. simpl.
rewrite wrapChannel_differ by discriminate.
now rewrite String.eqb_refl.
Qed.

(** *** A forwarded call *)

Lemma resolveTarget_same st st' options :
Main.getWebContentsId st' = Main.getWebContentsId st ->
Main.resolveTarget w st' options = Main.resolveTarget w st options.
Proof.
intro H. unfold Main.resolveTarget, Main.targetWebContentsId. now rewrite H.
Qed.

(** The state the invoke-to handler leaves when it forwards. *)
Lemma handleInvokeTo_forwards st sender channel options id :
let rid := Base.entropy (Main.service st) (Base.generated (Main.service st)) in
let n := Main.invocations st in
let message :=
  {| Main.target := id;
     Main.channel := channel;
     Main.payload := data options;
     Main.meta :=
       {| requestId := Some rid;
          callerId := sender;
          budget :=
            match timeout options with
            | Some t => Some t
            | None => Base.pendingRequestTimeout
                        (Base.options (Main.service st))
            end |} |} in
Main.resolveTarget w st options = inl id ->
Main.sendError w message = None ->
Main.handleInvokeTo w st sender channel options
= {| Main.service :=
       Base.addPendingRequest (snd (Base.generateId (Main.service st))) rid
         (Main.ResolveOf n) (Main.RejectOf n) (Some (Main.nextTimer st));
     Main.getWebContentsId := Main.getWebContentsId st;
     Main.timers := Main.timers st ++ [(Main.nextTimer st, rid)];
     Main.nextTimer := S (Main.nextTimer st);
     Main.invocations := S n;
     Main.awaiting := (n, rid) :: Main.awaiting st;
     Main.microtasks := Main.microtasks st;
     Main.forwarded := Main.forwarded st ++ [message];
     Main.returned := Main.returned st;
     Main.uncaught := Main.uncaught st |}.
Proof.
intros rid n message Hid Hsend. unfold Main.handleInvokeTo. simpl.
rewrite (resolveTarget_same st) by reflexivity. rewrite Hid. simpl.
fold rid. fold message. rewrite Hsend. reflexivity.
Qed.

(** A result that arrives on reply-to for a pending identifier fulfils
    the caller whose run registered the entry. *)
Lemma reply_settles st rid n pr v error :
Main.microtasks st = [] ->
Base.get (Base.pendingRequests (Main.service st)) rid = Some pr ->
Base.resolve pr = Main.ResolveOf n ->
Main.suspended (Main.awaiting st) n <> None ->
truthy error = false ->
Main.returned (Main.dispatch w st (Main.ReplyToMessage (Some rid) v error))
= Main.returned st ++ [(n, Fulfilled v)].
Proof.
intros Hq Hget Hres Hsusp Herr.
unfold Main.dispatch. simpl. unfold Main.handleReplyTo. rewrite Herr.
unfold Base.resolvePendingRequest. rewrite Hget, Hres.
unfold Main.lift. simpl. rewrite fold_left_app. simpl.
set (st0 := fold_left Main.applyEffect (Base.clearIfSet (Base.timeout pr)) _).
assert (H0 : Main.awaiting st0 = Main.awaiting st
             /\ Main.microtasks st0 = []
             /\ Main.returned st0 = Main.returned st).
{ subst st0. destruct (Base.timeout pr); simpl; auto. }
destruct H0 as [Ha [Hm Hr]].
unfold Main.settlePromise. rewrite Ha.
destruct (Main.suspended (Main.awaiting st) n) as [id|]; [|congruence].
rewrite Hm. unfold Main.budgetOf. simpl.
rewrite drain_idle by reflexivity. simpl. now rewrite Hr.
Qed.

End Hub.

(** ** Claims about the relay *)

(** C2 (as stated) — the identifier that reaches the target is not one the
    caller generated.  [invokeTo] leaves the caller's service object, and
    with it its generator, untouched, and no function of the caller and of
    the arguments of its call gives the identifier delivered: the same
    request, received by two hubs that differ only in the randomness behind
    [nanoid()], is forwarded under two different identifiers. *)
Lemma C2_request_id_is_not_the_callers :
  snd (Renderer.invokeTo Scenario.peer "testSub" (Scenario.toWindow "sub"))
  = Scenario.peer
  /\ ~ (exists f : Base.BaseIpcService unit -> string -> RequestOptions -> string,
          forall rng : nat -> string,
            Main.delivered
              (Main.receive Scenario.electron
                 (Main.create None (Some Scenario.getWebContentsId) rng) 1%Z
                 (fst (Renderer.invokeTo Scenario.peer "testSub"
                                         (Scenario.toWindow "sub"))))
            = [Some (f Scenario.peer "testSub" (Scenario.toWindow "sub"))]).
Proof.
  split; [reflexivity|].
  intros [f Hf].
  pose proof (Hf Scenario.nanoid) as H1.
  pose proof (Hf Scenario.otherNanoid) as H2.
  vm_compute in H1, H2. rewrite <- H1 in H2. discriminate H2.
Qed.

(** C2 (amended) — For every relayed call that the hub forwards, the request
    identifier the hub generates when the call arrives is the identifier in
    the relay metadata delivered to the target, the key of the hub's pending
    entry for the call, and the identifier on every reply-relay message the
    target's wrapped listener sends; a result reply carrying it fulfils the
    promise of the caller that issued the call.  The caller's [invokeTo]
    generates no identifier. *)
Theorem C2_request_id_round_trip {K K' : Type} (w : Main.Electron)
        (st : Main.State) (caller : Base.BaseIpcService K)
        (peer : Base.BaseIpcService K') (sender id : Z) (name : string)
        (options : RequestOptions) :
  let rid := Base.entropy (Main.service st) (Base.generated (Main.service st)) in
  let n := Main.invocations st in
  let message :=
    {| Main.target := id;
       Main.channel :=
         Base.wrapChannel caller (scoped IpcChannelType.External name);
       Main.payload := data options;
       Main.meta :=
         {| requestId := Some rid;
            callerId := sender;
            budget :=
              match timeout options with
              | Some t => Some t
              | None => Base.pendingRequestTimeout
                          (Base.options (Main.service st))
              end |} |} in
  let st1 :=
    Main.receive w st sender (fst (Renderer.invokeTo caller name options)) in
  Base.ipcChannelPrefix (Base.options caller)
  = Base.ipcChannelPrefix (Base.options (Main.service st)) ->
  Base.ipcChannelPrefix (Base.options peer)
  = Base.ipcChannelPrefix (Base.options (Main.service st)) ->
  Main.microtasks st = [] ->
  Main.resolveTarget w st options = inl id ->
  Main.sendError w message = None ->
  snd (Renderer.invokeTo caller name options) = caller
  /\ Main.forwarded st1 = Main.forwarded st ++ [message]
  /\ Base.get (Base.pendingRequests (Main.service st1)) rid
     = Some {| Base.resolve := Main.ResolveOf n;
               Base.reject := Main.RejectOf n;
               Base.timeout := Some (Main.nextTimer st) |}
  /\ (forall listener evs m,
         In m (Renderer.sent
                 (Renderer.handling peer listener (Main.arrives message) evs)) ->
         exists s, m = Renderer.reply peer (Some rid) s)
  /\ (forall v,
         Main.returned
           (Main.receive w st1 id
                         (Renderer.reply peer (Some rid) (Fulfilled v)))
         = Main.returned st ++ [(n, Fulfilled v)]).
Proof.
  intros rid n message st1 Hcaller Hpeer Hq Hid Hsend.
  assert (Hst1 : st1 = Main.handleInvokeTo w st sender
                         (Base.wrapChannel caller
                            (scoped IpcChannelType.External name)) options).
  { subst st1. unfold Main.receive, Renderer.invokeTo. simpl.
    rewrite (wrapChannel_prefix caller (Main.service st)
               (scoped IpcChannelType.Internal "invoke-to")) by exact Hcaller.
    rewrite route_invoke_to. unfold Main.dispatch. simpl.
    apply drain_idle.
    rewrite (handleInvokeTo_forwards w st sender _ options id Hid Hsend).
    exact Hq. }
  rewrite (handleInvokeTo_forwards w st sender _ options id Hid Hsend) in Hst1.
  fold rid n message in Hst1.
  split; [reflexivity|].
  split; [now rewrite Hst1|].
  split; [rewrite Hst1; simpl; apply get_set_same|].
  split.
  - intros listener evs m Hin. rewrite handling_spec in Hin. simpl in Hin.
    destruct (result _) as [s|]; [|destruct Hin].
    destruct Hin as [<-|[]]. now exists s.
  - intro v. unfold Main.receive, Renderer.reply. simpl.
    rewrite (wrapChannel_prefix peer (Main.service st1)
               (scoped IpcChannelType.Internal "reply-to"))
      by (rewrite Hst1; exact Hpeer).
    rewrite route_reply_to.
    rewrite (reply_settles w st1 rid n
               {| Base.resolve := Main.ResolveOf n;
                  Base.reject := Main.RejectOf n;
                  Base.timeout := Some (Main.nextTimer st) |} v VUndefined).
    + now rewrite Hst1.
    + now rewrite Hst1.
    + rewrite Hst1. simpl. apply get_set_same.
    + reflexivity.
    + rewrite Hst1. simpl. rewrite Nat.eqb_refl. discriminate.
    + reflexivity.
Qed.

Lemma C2_request_id_round_trip_witness :
  Main.delivered
    (Main.receive Scenario.electron Scenario.hub 1%Z
       (fst (Renderer.invokeTo Scenario.peer "testSub"
                               (Scenario.toWindow "sub"))))
  = [Some "V1StGXR8"]
  /\ Main.returned
       (Main.receive Scenario.electron
          (Main.receive Scenario.electron Scenario.hub 1%Z
             (fst (Renderer.invokeTo Scenario.peer "testSub"
                                     (Scenario.toWindow "sub"))))
          2%Z
          (Renderer.reply Scenario.peer (Some "V1StGXR8")
                          (Fulfilled (VBool true))))
     = [(0, Fulfilled (VBool true))].
Proof.
  pose proof (C2_request_id_round_trip Scenario.electron Scenario.hub
                Scenario.peer Scenario.peer 1%Z 2%Z "testSub"
                (Scenario.toWindow "sub")
                eq_refl eq_refl eq_refl eq_refl eq_refl)
    as [_ [Hfwd [_ [_ Hret]]]].
  split.
  - unfold Main.delivered. rewrite Hfwd. reflexivity.
  - exact (Hret (VBool true)).
Defined.

(** C1 — What the caller of a relayed [invokeTo] observes when the relay
    fails, in the two-window scenario.  Window 1 calls
    [invokeTo('testSub', { data: [7], windowParams: [window] })].  Whether the
    target is unresolved (["missing"]), resolved to no live connection
    (["closed"]), forwarded and then timed out, or forwarded and answered
    with a handler error on reply-to, the hub's handler ends normally and the
    caller's promise is fulfilled with [undefined]: the [catch] block hands
    the error to [rejectPendingRequest] for an identifier that is not, or no
    longer, in the table, and rethrows nothing. *)
Theorem C1_relay_failures_fulfil_with_undefined :
  let call window :=
    Main.receive Scenario.electron Scenario.hub 1%Z
      (fst (Renderer.invokeTo Scenario.peer "testSub"
                              (Scenario.toWindow window))) in
  Main.returned (call "missing") = [(0, Fulfilled VUndefined)]
  /\ Main.returned (call "closed") = [(0, Fulfilled VUndefined)]
  /\ Main.returned (call "sub") = []
  /\ Main.returned (Main.dispatch Scenario.electron (call "sub")
                                  (Main.TimerExpired 0))
     = [(0, Fulfilled VUndefined)]
  /\ Main.returned
       (Main.receive Scenario.electron (call "sub") 2%Z
          (Renderer.reply Scenario.peer (Some "V1StGXR8")
                          (Rejected (VError "boom"))))
     = [(0, Fulfilled VUndefined)].
Proof.
  vm_compute. repeat split.
Qed.

(** C3 — A relayed call whose options carry no target identifier and whose
    lookup yields none, in the two-window scenario
    ([{ data: [7], windowParams: ['missing'] }]).  On both paths the check
    raises [Error('webContentsId is required')] and nothing is forwarded.  On
    the send-to path the error leaves the listener.  On the invoke-to path it
    does not: no error leaves the handler, no entry is pending, and the
    relayed call completes with [undefined]. *)
Theorem C3_unresolved_target_forwards_nothing :
  let options := Scenario.toWindow "missing" in
  let sent :=
    Main.receive Scenario.electron Scenario.hub 1%Z
      (fst (Renderer.sendTo Scenario.peer "testSub" options)) in
  let invoked :=
    Main.receive Scenario.electron Scenario.hub 1%Z
      (fst (Renderer.invokeTo Scenario.peer "testSub" options)) in
  Main.resolveTarget Scenario.electron Scenario.hub options
  = inr (VError "webContentsId is required")
  /\ Main.forwarded sent = []
  /\ Main.uncaught sent = [VError "webContentsId is required"]
  /\ Main.forwarded invoked = []
  /\ Main.uncaught invoked = []
  /\ Base.pendingRequests (Main.service invoked) = []
  /\ Main.returned invoked = [(0, Fulfilled VUndefined)].
Proof.
  vm_compute. repeat split.
Qed.

(** * Further properties *)

(** ** The table as a map *)

Section TableAsMap.

Context {K : Type}.
Implicit Types (m : Base.table K) (s : Base.BaseIpcService K).

Lemma get_set_other m id id' v :
  id <> id' -> Base.get (Base.set m id v) id' = Base.get m id'.
Proof.
  intro Hne. induction m as [|[k w] m IH]; simpl.
  - now rewrite (proj2 (String.eqb_neq id id') Hne).
  - destruct (k =? id) eqn:E; simpl.
    + apply String.eqb_eq in E. subst k.
      now rewrite (proj2 (String.eqb_neq id id') Hne).
    + destruct (k =? id'); [reflexivity | exact IH].
Qed.

Lemma get_delete_other m id id' :
  id <> id' -> Base.get (Base.delete m id) id' = Base.get m id'.
Proof.
  intro Hne. induction m as [|[k w] m IH]; simpl; [reflexivity|].
  destruct (k =? id) eqn:E; simpl.
  - apply String.eqb_eq in E. subst k.
    now rewrite (proj2 (String.eqb_neq id id') Hne).
  - destruct (k =? id'); [reflexivity | exact IH].
Qed.

Lemma get_none_keys m id : Base.get m id = None <-> ~ In id (Base.keys m).
Proof.
  induction m as [|[k w] m IH]; simpl.
  - split; auto.
  - destruct (k =? id) eqn:E.
    + apply String.eqb_eq in E. split; [discriminate | intro H; elim H; auto].
    + apply String.eqb_neq in E. rewrite IH. tauto.
Qed.

Lemma keys_set m id v :
  Base.keys (Base.set m id v)
  = match Base.get m id with
    | Some _ => Base.keys m
    | None => Base.keys m ++ [id]
    end.
Proof.
  induction m as [|[k w] m IH]; simpl; [reflexivity|].
  destruct (k =? id) eqn:E; simpl; [reflexivity|].
  rewrite IH. now destruct (Base.get m id).
Qed.

Lemma keys_existsb m id :
  existsb (String.eqb id) (Base.keys m)
  = match Base.get m id with Some _ => true | None => false end.
Proof.
  induction m as [|[k w] m IH]; simpl; [reflexivity|].
  rewrite (String.eqb_sym id k). destruct (k =? id); [reflexivity | exact IH].
Qed.

Lemma keys_delete m id :
  Base.keys (Base.delete m id)
  = filter (fun k => negb (k =? id)) (Base.keys m).
Proof.
  induction m as [|[k w] m IH]; simpl; [reflexivity|].
  destruct (k =? id); simpl; now rewrite IH.
Qed.

Lemma keys_set_unique m id v :
  NoDup (Base.keys m) -> NoDup (Base.keys (Base.set m id v)).
Proof.
  intro H. rewrite keys_set.
  destruct (Base.get m id) eqn:E; [exact H|].
  apply get_none_keys in E.
  apply NoDup_app; [exact H | repeat constructor; auto |].
  intros x Hx [<-|[]]. now apply E.
Qed.

Lemma keys_delete_unique m id :
  NoDup (Base.keys m) -> NoDup (Base.keys (Base.delete m id)).
Proof. intro H. rewrite keys_delete. now apply NoDup_filter. Qed.

Lemma perform_unique s a :
  NoDup (Base.keys (Base.pendingRequests s)) ->
  NoDup (Base.keys (Base.pendingRequests (snd (Base.perform s a)))).
Proof.
  intro H. destruct a as [id d|id e|]; simpl.
  - unfold Base.resolvePendingRequest.
    destruct (Base.get _ id); simpl; auto using keys_delete_unique.
  - unfold Base.rejectPendingRequest.
    destruct (Base.get _ id); simpl; auto using keys_delete_unique.
  - rewrite dropAll_spec. constructor.
Qed.

Lemma operate_unique s (o : Base.operation K) :
  NoDup (Base.keys (Base.pendingRequests s)) ->
  NoDup (Base.keys (Base.pendingRequests (snd (Base.operate s o)))).
Proof.
  intro H. destruct o as [id res rej t|a]; simpl.
  - now apply keys_set_unique.
  - now apply perform_unique.
Qed.

Lemma operateAll_cons s (o : Base.operation K) (l : list (Base.operation K)) :
  Base.operateAll s (o :: l)
  = (fst (Base.operate s o) ++ fst (Base.operateAll (snd (Base.operate s o)) l),
     snd (Base.operateAll (snd (Base.operate s o)) l)).
Proof.
  unfold Base.operateAll. simpl.
  generalize (fst (Base.operate s o)) as e0.
  generalize (snd (Base.operate s o)) as s0.
  induction l as [|o' l IH]; intros s0 e0; simpl.
  - now rewrite app_nil_r.
  - rewrite (IH (snd (Base.operate s0 o')) (e0 ++ fst (Base.operate s0 o'))).
    rewrite (IH (snd (Base.operate s0 o')) (fst (Base.operate s0 o'))).
    simpl. now rewrite app_assoc.
Qed.

Lemma performAll_cons s (a : Base.attempt) (l : list Base.attempt) :
  Base.performAll s (a :: l)
  = (fst (Base.perform s a) ++ fst (Base.performAll (snd (Base.perform s a)) l),
     snd (Base.performAll (snd (Base.perform s a)) l)).
Proof.
  unfold Base.performAll. simpl.
  generalize (fst (Base.perform s a)) as e0.
  generalize (snd (Base.perform s a)) as s0.
  induction l as [|a' l IH]; intros s0 e0; simpl.
  - now rewrite app_nil_r.
  - rewrite (IH (snd (Base.perform s0 a')) (e0 ++ fst (Base.perform s0 a'))).
    rewrite (IH (snd (Base.perform s0 a')) (fst (Base.perform s0 a'))).
    simpl. now rewrite app_assoc.
Qed.

Lemma calls_app (l1 l2 : list (Base.effect K)) :
  Base.calls (l1 ++ l2) = Base.calls l1 ++ Base.calls l2.
Proof. unfold Base.calls. apply flat_map_app. Qed.

Lemma calls_settling (t : option Timer) (k : K) (v : value) :
  Base.calls (Base.clearIfSet t ++ [Base.Call k v]) = [(k, v)].
Proof. destruct t; reflexivity. Qed.

(** Every continuation called costs the table an entry. *)
Lemma perform_pays s a :
  length (Base.calls (fst (Base.perform s a)))
  + length (Base.pendingRequests (snd (Base.perform s a)))
  <= length (Base.pendingRequests s).
Proof.
  destruct a as [id d|id e|]; simpl.
  - unfold Base.resolvePendingRequest.
    destruct (Base.get _ id) as [pr|] eqn:E; simpl; [|lia].
    rewrite calls_settling. simpl.
    pose proof (delete_present_length _ _ _ E). lia.
  - unfold Base.rejectPendingRequest.
    destruct (Base.get _ id) as [pr|] eqn:E; simpl; [|lia].
    rewrite calls_settling. simpl.
    pose proof (delete_present_length _ _ _ E). lia.
  - rewrite dropAll_spec. simpl. rewrite calls_rejections, length_map. lia.
Qed.

End TableAsMap.

(** X1 — The keys of the pending request table stay distinct: starting from
    a new service, after any sequence of [addPendingRequest],
    [resolvePendingRequest], [rejectPendingRequest] and
    [dropAllPendingRequests] calls no identifier occurs twice among the
    entries. *)
Theorem X1_keys_stay_distinct {K : Type}
        (user : option Base.IpcServiceBaseOptions) (rng : nat -> string)
        (l : list (Base.operation K)) :
  NoDup (Base.keys
           (Base.pendingRequests
              (snd (Base.operateAll (Base.create user rng) l)))).
Proof.
  assert (H : forall (s : Base.BaseIpcService K),
             NoDup (Base.keys (Base.pendingRequests s)) ->
             NoDup (Base.keys (Base.pendingRequests
                                 (snd (Base.operateAll s l))))).
  { induction l as [|o l IH]; intros s Hs; [exact Hs|].
    rewrite operateAll_cons. simpl. apply IH. now apply operate_unique. }
  apply H. constructor.
Qed.

(** X2 — Lookup after [addPendingRequest]: the identifier just added maps to
    the new entry (its resolve, reject and timer), also when it was pending
    before, in which case the earlier entry is gone; every other identifier
    maps to what it mapped to before. *)
Theorem X2_lookup_after_add {K : Type} (s : Base.BaseIpcService K)
        (id id' : string) (res rej : K) (t : option Timer) :
  Base.get (Base.pendingRequests (Base.addPendingRequest s id res rej t)) id'
  = if id =? id'
    then Some {| Base.resolve := res; Base.reject := rej; Base.timeout := t |}
    else Base.get (Base.pendingRequests s) id'.
Proof.
  unfold Base.addPendingRequest. simpl.
  destruct (id =? id') eqn:E.
  - apply String.eqb_eq in E. subst id'. apply get_set_same.
  - apply String.eqb_neq in E. now apply get_set_other.
Qed.

(** X3 — [addPendingRequest] keeps the iteration order of a [Map]: an
    identifier that is already pending keeps its place and the table its
    size; a new identifier goes to the end and the table grows by one. *)
Theorem X3_add_keeps_order {K : Type} (s : Base.BaseIpcService K)
        (id : string) (res rej : K) (t : option Timer) :
  let s' := Base.addPendingRequest s id res rej t in
  Base.keys (Base.pendingRequests s')
  = (if existsb (String.eqb id) (Base.keys (Base.pendingRequests s))
     then Base.keys (Base.pendingRequests s)
     else Base.keys (Base.pendingRequests s) ++ [id])
  /\ length (Base.pendingRequests s')
     = if existsb (String.eqb id) (Base.keys (Base.pendingRequests s))
       then length (Base.pendingRequests s)
       else S (length (Base.pendingRequests s)).
Proof.
  intro s'. subst s'. unfold Base.addPendingRequest. simpl.
  assert (Hk := keys_set (Base.pendingRequests s) id
                         {| Base.resolve := res; Base.reject := rej;
                            Base.timeout := t |}).
  rewrite keys_existsb. split.
  - rewrite Hk. now destruct (Base.get (Base.pendingRequests s) id).
  - rewrite <- (length_map fst), <- (length_map fst (Base.pendingRequests s)).
    fold (Base.keys (Base.set (Base.pendingRequests s) id
                       {| Base.resolve := res; Base.reject := rej;
                          Base.timeout := t |})).
    fold (Base.keys (Base.pendingRequests s)).
    rewrite Hk. destruct (Base.get (Base.pendingRequests s) id);
      [reflexivity | rewrite length_app; simpl; lia].
Qed.

(** X4 — Settling one request does not disturb another: after
    [resolvePendingRequest] or [rejectPendingRequest] for [id], every other
    identifier maps to the entry it mapped to before, and the remaining keys
    are the former keys, in order, without [id]. *)
Theorem X4_settling_leaves_others {K : Type} (s : Base.BaseIpcService K)
        (id id' : string) (v : value) :
  id <> id' ->
  let r := snd (Base.resolvePendingRequest s id v) in
  let j := snd (Base.rejectPendingRequest s id v) in
  Base.get (Base.pendingRequests r) id' = Base.get (Base.pendingRequests s) id'
  /\ Base.get (Base.pendingRequests j) id' = Base.get (Base.pendingRequests s) id'
  /\ Base.keys (Base.pendingRequests r)
     = filter (fun k => negb (k =? id)) (Base.keys (Base.pendingRequests s))
  /\ Base.keys (Base.pendingRequests j)
     = filter (fun k => negb (k =? id)) (Base.keys (Base.pendingRequests s)).
Proof.
  intros Hne r j. subst r j.
  unfold Base.resolvePendingRequest, Base.rejectPendingRequest.
  destruct (Base.get (Base.pendingRequests s) id) as [pr|] eqn:E; simpl.
  - rewrite get_delete_other by exact Hne. rewrite keys_delete. auto.
  - assert (Hf : filter (fun k => negb (k =? id))
                        (Base.keys (Base.pendingRequests s))
                 = Base.keys (Base.pendingRequests s)).
    { apply get_none_keys in E.
      induction (Base.pendingRequests s) as [|[k w] m IH]; simpl in *;
        [reflexivity|].
      destruct (k =? id) eqn:Ek.
      - apply String.eqb_eq in Ek. elim E. now left.
      - simpl. f_equal. apply IH. intro H. apply E. now right. }
    rewrite Hf. auto.
Qed.

Lemma X4_settling_leaves_others_witness :
  Base.get
    (Base.pendingRequests
       (snd (Base.resolvePendingRequest
               (Base.addPendingRequest Scenario.waiting "Z5jdHi6B" 20 21 None)
               "V1StGXR8" (VBool true))))
    "Z5jdHi6B"
  = Some {| Base.resolve := 20; Base.reject := 21; Base.timeout := None |}.
Proof.
  refine (eq_trans
            (proj1 (X4_settling_leaves_others
                      (Base.addPendingRequest Scenario.waiting "Z5jdHi6B"
                                              20 21 None)
                      "V1StGXR8" "Z5jdHi6B" (VBool true) _))
            eq_refl).
  discriminate.
Defined.

(** X5 — Over any sequence of resolve, reject and drop-all calls, the
    continuations called are never more than the entries the table held at
    the start: no entry is settled twice, whatever the order and the
    identifiers of the calls. *)
Theorem X5_continuations_bounded_by_entries {K : Type}
        (s : Base.BaseIpcService K) (l : list Base.attempt) :
  length (Base.calls (fst (Base.performAll s l)))
  + length (Base.pendingRequests (snd (Base.performAll s l)))
  <= length (Base.pendingRequests s).
Proof.
  revert s. induction l as [|a l IH]; intro s.
  - simpl. lia.
  - rewrite performAll_cons. simpl. rewrite calls_app, length_app.
    pose proof (IH (snd (Base.perform s a))).
    pose proof (perform_pays s a). lia.
Qed.

(** ** Which handler a message reaches *)

Lemma route_send_to (s : Base.BaseIpcService Main.continuation) :
  Main.route s (Base.wrapChannel s (scoped IpcChannelType.Internal "send-to"))
  = Some Main.SendTo.
Proof.
  unfold Main.route, Main.init. simpl.
  rewrite !wrapChannel_differ by discriminate.
  now rewrite String.eqb_refl.
Qed.

Lemma route_external (s : Base.BaseIpcService Main.continuation)
      (name : string) :
  Main.route s (Base.wrapChannel s (scoped IpcChannelType.External name)) = None.
Proof.
  unfold Main.route, Main.init. simpl.
  rewrite !wrapChannel_differ by discriminate. reflexivity.
Qed.

(** X6 — A user operation never reaches the hub's relay handlers: under
    the hub's prefix, the channel of [send] and [invoke] for any operation
    name, also a name such as [invoke-to] or [internal:reply-to], is none of
    the three channels the hub listens on, and such a message leaves the
    relay state as it is. *)
Theorem X6_user_channels_reach_no_relay_handler {K : Type} (w : Main.Electron)
        (st : Main.State) (this : Base.BaseIpcService K) (sender : Z)
        (name : string) (payload : list value)
        (options : option RequestOptions) :
  Base.ipcChannelPrefix (Base.options this)
  = Base.ipcChannelPrefix (Base.options (Main.service st)) ->
  Main.route (Main.service st)
             (Renderer.channel (Renderer.send this name payload)) = None
  /\ Main.route (Main.service st)
                (Renderer.channel (fst (Renderer.invoke this name options)))
     = None
  /\ Main.receive w st sender (Renderer.send this name payload) = st
  /\ Main.receive w st sender (fst (Renderer.invoke this name options)) = st.
Proof.
  intro Hp.
  assert (Hr : Main.route (Main.service st)
                 (Base.wrapChannel this (scoped IpcChannelType.External name))
               = None).
  { rewrite (wrapChannel_prefix this (Main.service st)) by exact Hp.
    apply route_external. }
  unfold Main.receive. simpl. rewrite Hr. auto.
Qed.

Lemma X6_user_channels_reach_no_relay_handler_witness :
  Main.route (Main.service Scenario.hub)
             (Renderer.channel
                (Renderer.send Scenario.peer "internal:invoke-to" [VNum 7]))
  = None.
Proof.
  exact (proj1 (X6_user_channels_reach_no_relay_handler Scenario.electron
                  Scenario.hub Scenario.peer 1%Z "internal:invoke-to"
                  [VNum 7] None eq_refl)).
Defined.

(** X7 — Under the hub's prefix, a window's [invokeTo] reaches the invoke-to
    handler, its [sendTo] the send-to handler, and the reply of a wrapped
    listener the reply-to handler, each with the arguments the window
    passed: the wrapped name of the operation, the options, and the
    [requestId], data and error of the reply. *)
Theorem X7_relay_messages_reach_their_handler {K : Type} (w : Main.Electron)
        (st : Main.State) (this : Base.BaseIpcService K) (sender : Z)
        (name : string) (options : RequestOptions)
        (rid : option string) (s : settlement) :
  Base.ipcChannelPrefix (Base.options this)
  = Base.ipcChannelPrefix (Base.options (Main.service st)) ->
  Main.receive w st sender (fst (Renderer.invokeTo this name options))
  = Main.dispatch w st
      (Main.InvokeToMessage sender
         (Base.wrapChannel this (scoped IpcChannelType.External name)) options)
  /\ Main.receive w st sender (fst (Renderer.sendTo this name options))
     = Main.dispatch w st
         (Main.SendToMessage sender
            (Base.wrapChannel this (scoped IpcChannelType.External name))
            options)
  /\ Main.receive w st sender (Renderer.reply this rid s)
     = Main.dispatch w st
         (match s with
          | Fulfilled v => Main.ReplyToMessage rid v VUndefined
          | Rejected e => Main.ReplyToMessage rid VUndefined e
          end).
Proof.
  intro Hp. unfold Main.receive, Renderer.invokeTo, Renderer.sendTo,
              Renderer.reply. simpl.
  rewrite !(wrapChannel_prefix this (Main.service st)
              (scoped IpcChannelType.Internal _)) by exact Hp.
  rewrite route_invoke_to, route_send_to, route_reply_to.
  destruct s; auto.
Qed.

Lemma X7_relay_messages_reach_their_handler_witness :
  Main.uncaught
    (Main.receive Scenario.electron Scenario.hub 1%Z
       (fst (Renderer.sendTo Scenario.peer "testSub"
                             (Scenario.toWindow "missing"))))
  = [VError "webContentsId is required"].
Proof.
  rewrite (proj1 (proj2 (X7_relay_messages_reach_their_handler
                           Scenario.electron Scenario.hub Scenario.peer 1%Z
                           "testSub" (Scenario.toWindow "missing") None
                           (Fulfilled VUndefined) eq_refl))).
  reflexivity.
Defined.

(** ** Replies in logical time *)

(** X8 — A direct [invoke] with a positive timeout [T] that [setTimeout]
    takes as it is (up to 2147483647), whose reply arrives at [r < T]: the
    caller's promise is pending before [r] and settled with the reply from
    [r] on; the timer that fires afterwards at [T] does not change it. *)
Theorem X8_invoke_reply_in_time {K : Type} (this : Base.BaseIpcService K)
        (channel : string) (options : RequestOptions) (T r : Z)
        (s : settlement) :
  timeout options = Some T -> (0 < T <= 2147483647)%Z -> (r < T)%Z ->
  let call := snd (Renderer.invoke this channel (Some options)) in
  (forall now, (now < r)%Z -> observe call (Some (r, s)) now = None)
  /\ (forall now, (r <= now)%Z -> observe call (Some (r, s)) now = Some s)
  /\ (forall later, result (run call (Settled s :: later)) = Some s).
Proof.
  intros Hopt [Hpos Hmax] Hin call.
  assert (Hcall : call = {| timer := Some (T, Renderer.invokeTimedOut);
                            result := None |}).
  { subst call. unfold Renderer.invoke. simpl. rewrite Hopt.
    now rewrite (proj2 (Z.ltb_lt 0 T) Hpos). }
  rewrite Hcall. unfold observe, schedule. simpl.
  rewrite (timerDelay_same T Hpos Hmax).
  rewrite (proj2 (Z.leb_le r T)) by lia.
  split; [|split].
  - intros now Hnow. unfold elapsed. simpl.
    rewrite (proj2 (Z.leb_gt r now) Hnow).
    assert (Ht : (T <=? now)%Z = false) by (apply Z.leb_gt; lia).
    now rewrite Ht.
  - intros now Hnow. unfold elapsed. simpl.
    rewrite (proj2 (Z.leb_le r now) Hnow).
    destruct (T <=? now)%Z; reflexivity.
  - intro later.
    change (result (run (step {| timer := Some (T, Renderer.invokeTimedOut);
                                 result := None |} (Settled s)) later)
            = Some s).
    rewrite run_settled; simpl; [reflexivity | discriminate].
Qed.

Lemma X8_invoke_reply_in_time_witness :
  observe (snd (Renderer.invoke Scenario.peer "ping" (Some Scenario.slow)))
          (Some (20%Z, Fulfilled (VBool true))) 60%Z
  = Some (Fulfilled (VBool true)).
Proof.
  refine (proj1 (proj2 (X8_invoke_reply_in_time Scenario.peer "ping"
                          Scenario.slow 50%Z 20%Z (Fulfilled (VBool true))
                          eq_refl (conj _ _) _)) 60%Z _);
    first [reflexivity | discriminate].
Defined.

Section RepliesInTime.

Context {K : Type}.
Variable this : Base.BaseIpcService K.

Lemma handlingAt_spec (listener : Renderer.Listener)
      (args : Renderer.ListenerArgs) (underlying : option (Z * settlement))
      (now : Z) :
  Renderer.sent (Renderer.handlingAt this listener args underlying now)
  = Renderer.replies this (requestId (snd args))
      (observe (Fn.processFunction (Renderer.apply listener) args
                                   (budget (snd args))) underlying now).
Proof.
  unfold Renderer.handlingAt. rewrite handling_spec. unfold observe.
  now destruct args as [[event data] options].
Qed.

End RepliesInTime.

(** X9 — A wrapped listener whose handler returns an awaitable, under a
    positive metadata timeout [T] that [setTimeout] takes as it is (up to
    2147483647).  If the awaitable settles at [r < T], the one reply is sent
    at [r] and carries its settlement; if it settles after [T] or never, the
    one reply is sent at [T] and carries
    [Error('Process function timed out')]; before that nothing is sent. *)
Theorem X9_reply_of_a_bounded_handler {K : Type} (this : Base.BaseIpcService K)
        (listener : Renderer.Listener) (event : Renderer.IpcRendererEvent)
        (data : option (list value)) (options : RelayMeta) (T : Z) :
  listener event data options = Fn.Awaitable ->
  budget options = Some T -> (0 < T <= 2147483647)%Z ->
  let sentAt underlying now :=
    Renderer.sent (Renderer.handlingAt this listener (event, data, options)
                                       underlying now) in
  let message body :=
    {| Renderer.via := Renderer.Send;
       Renderer.channel := Base.wrapChannel this "internal:reply-to";
       Renderer.body := body |} in
  let settled s :=
    match s with
    | Fulfilled v => message (Renderer.Reply (requestId options) v VUndefined)
    | Rejected e => message (Renderer.Reply (requestId options) VUndefined e)
    end in
  let timedOut :=
    message (Renderer.Reply (requestId options) VUndefined
                            (VError "Process function timed out")) in
  (forall r s now, (r < T)%Z ->
     sentAt (Some (r, s)) now = if (r <=? now)%Z then [settled s] else [])
  /\ (forall r s now, (T < r)%Z ->
        sentAt (Some (r, s)) now = if (T <=? now)%Z then [timedOut] else [])
  /\ (forall now, sentAt None now = if (T <=? now)%Z then [timedOut] else []).
Proof.
  intros Hl Hb [Hpos Hmax] sentAt message settled timedOut.
  subst sentAt timedOut.
  assert (Hx : Fn.processFunction (Renderer.apply listener)
                 (event, data, options) (budget options)
               = {| timer := Some (T, Fn.timedOut); result := None |}).
  { unfold Fn.processFunction. simpl. rewrite Hb, Hl.
    now rewrite (proj2 (Z.ltb_lt 0 T) Hpos). }
  split; [|split].
  - intros r s now Hr. rewrite handlingAt_spec. simpl. rewrite Hx.
    unfold observe, schedule, elapsed. simpl.
    rewrite (timerDelay_same T Hpos Hmax).
    rewrite (proj2 (Z.leb_le r T)) by lia. simpl.
    destruct (r <=? now)%Z eqn:E1; destruct (T <=? now)%Z eqn:E2;
      try (destruct s; reflexivity).
    apply Z.leb_gt in E1. apply Z.leb_le in E2. lia.
  - intros r s now Hr. rewrite handlingAt_spec. simpl. rewrite Hx.
    unfold observe, schedule, elapsed. simpl.
    rewrite (timerDelay_same T Hpos Hmax).
    rewrite (proj2 (Z.leb_gt r T) Hr). simpl.
    destruct (T <=? now)%Z eqn:E1; destruct (r <=? now)%Z eqn:E2;
      try reflexivity.
    apply Z.leb_gt in E1. apply Z.leb_le in E2. lia.
  - intro now. rewrite handlingAt_spec. simpl. rewrite Hx.
    unfold observe, schedule, elapsed. simpl.
    rewrite (timerDelay_same T Hpos Hmax).
    destruct (T <=? now)%Z; reflexivity.
Qed.

Lemma X9_reply_of_a_bounded_handler_witness :
  Renderer.sent
    (Renderer.handlingAt Scenario.peer (fun _ _ _ => Fn.Awaitable)
       (Renderer.ipcRendererEvent, Some [VNum 7],
        {| requestId := Some "V1StGXR8"; callerId := 1%Z;
           budget := Some 50%Z |})
       (Some (20%Z, Fulfilled (VBool true))) 30%Z)
  = [ {| Renderer.via := Renderer.Send;
         Renderer.channel := "ipc-service:internal:reply-to";
         Renderer.body :=
           Renderer.Reply (Some "V1StGXR8") (VBool true) VUndefined |} ]
  /\ Renderer.sent
       (Renderer.handlingAt Scenario.peer (fun _ _ _ => Fn.Awaitable)
          (Renderer.ipcRendererEvent, Some [VNum 7],
           {| requestId := Some "V1StGXR8"; callerId := 1%Z;
              budget := Some 50%Z |})
          (Some (200%Z, Fulfilled (VBool true))) 60%Z)
     = [ {| Renderer.via := Renderer.Send;
            Renderer.channel := "ipc-service:internal:reply-to";
            Renderer.body :=
              Renderer.Reply (Some "V1StGXR8") VUndefined
                             (VError "Process function timed out") |} ].
Proof.
  assert (Hrange : (0 < 50 <= 2147483647)%Z)
    by (split; [reflexivity | discriminate]).
  pose proof (X9_reply_of_a_bounded_handler Scenario.peer
                (fun _ _ _ => Fn.Awaitable) Renderer.ipcRendererEvent
                (Some [VNum 7])
                {| requestId := Some "V1StGXR8"; callerId := 1%Z;
                   budget := Some 50%Z |} 50%Z eq_refl eq_refl Hrange)
    as [Hin [Hout _]].
  split.
  - exact (Hin 20%Z (Fulfilled (VBool true)) 30%Z eq_refl).
  - exact (Hout 200%Z (Fulfilled (VBool true)) 60%Z eq_refl).
Defined.

(** X10 — A wrapped listener under a metadata timeout that is zero,
    negative or absent (as on the send-to path) is not bounded: if its
    handler's awaitable never settles, no reply is ever sent; if it settles
    at [r], the one reply is sent at [r], however late, and carries its
    settlement. *)
Theorem X10_reply_of_an_unbounded_handler {K : Type}
        (this : Base.BaseIpcService K) (listener : Renderer.Listener)
        (event : Renderer.IpcRendererEvent) (data : option (list value))
        (options : RelayMeta) :
  listener event data options = Fn.Awaitable ->
  notPositive (budget options) ->
  let sentAt underlying now :=
    Renderer.sent (Renderer.handlingAt this listener (event, data, options)
                                       underlying now) in
  (forall now, sentAt None now = [])
  /\ (forall evs,
         (forall s, ~ In (Settled s) evs) ->
         Renderer.sent
           (Renderer.handling this listener (event, data, options) evs) = [])
  /\ (forall r s now,
         sentAt (Some (r, s)) now
         = if (r <=? now)%Z then [Renderer.reply this (requestId options) s]
           else []).
Proof.
  intros Hl Hb sentAt. subst sentAt.
  assert (Hx : Fn.processFunction (Renderer.apply listener)
                 (event, data, options) (budget options)
               = {| timer := None; result := None |}).
  { unfold Fn.processFunction. simpl. rewrite Hl.
    destruct (budget options) as [t|]; simpl in *; [|reflexivity].
    now rewrite (proj2 (Z.ltb_ge 0 t) Hb). }
  split; [|split].
  - intro now. rewrite handlingAt_spec. simpl. now rewrite Hx.
  - intros evs Hnone. rewrite handling_spec. simpl. rewrite Hx.
    rewrite run_no_timer by reflexivity.
    assert (Hf : firstSettled evs = None).
    { induction evs as [|[|s] evs IH]; simpl; [reflexivity| |].
      - apply IH. intros s H. apply (Hnone s). now right.
      - elim (Hnone s). now left. }
    now rewrite Hf.
  - intros r s now. rewrite handlingAt_spec. simpl. rewrite Hx.
    unfold observe, schedule, elapsed. simpl.
    destruct (r <=? now)%Z; reflexivity.
Qed.

Lemma X10_reply_of_an_unbounded_handler_witness :
  Renderer.sent
    (Renderer.handling Scenario.peer (fun _ _ _ => Fn.Awaitable)
       (Renderer.ipcRendererEvent, Some [VNum 7],
        {| requestId := None; callerId := 1%Z; budget := None |})
       [TimerFired; TimerFired])
  = [].
Proof.
  refine (proj1 (proj2 (X10_reply_of_an_unbounded_handler Scenario.peer
                          (fun _ _ _ => Fn.Awaitable)
                          Renderer.ipcRendererEvent (Some [VNum 7])
                          {| requestId := None; callerId := 1%Z;
                             budget := None |} eq_refl I))
                [TimerFired; TimerFired] _).
  intros s [H|[H|[]]]; discriminate H.
Defined.

(** X11 — A wrapped listener whose handler throws or returns a plain value
    has replied when the call returns, with the thrown error or with the
    value, whatever the metadata timeout; no later event, a timer included,
    makes it send anything else. *)
Theorem X11_synchronous_handler_replies_at_once {K : Type}
        (this : Base.BaseIpcService K) (listener : Renderer.Listener)
        (event : Renderer.IpcRendererEvent) (data : option (list value))
        (options : RelayMeta) :
  (forall e, listener event data options = Fn.Throws e ->
             forall evs,
               Renderer.sent
                 (Renderer.handling this listener (event, data, options) evs)
               = [Renderer.reply this (requestId options) (Rejected e)])
  /\ (forall v, listener event data options = Fn.Returns v ->
                forall evs,
                  Renderer.sent
                    (Renderer.handling this listener (event, data, options)
                                       evs)
                  = [Renderer.reply this (requestId options) (Fulfilled v)]).
Proof.
  split; intros x E evs; rewrite handling_spec; simpl;
    unfold Fn.processFunction; simpl; rewrite E;
    rewrite run_settled; simpl; first [reflexivity | discriminate].
Qed.

Lemma X11_synchronous_handler_replies_at_once_witness :
  Renderer.sent
    (Renderer.handling Scenario.peer (fun _ _ _ => Fn.Throws (VError "boom"))
       (Renderer.ipcRendererEvent, Some [VNum 7],
        {| requestId := Some "V1StGXR8"; callerId := 1%Z;
           budget := Some 50%Z |})
       [TimerFired])
  = [Renderer.reply Scenario.peer (Some "V1StGXR8")
                    (Rejected (VError "boom"))].
Proof.
  exact (proj1 (X11_synchronous_handler_replies_at_once Scenario.peer
                  (fun _ _ _ => Fn.Throws (VError "boom"))
                  Renderer.ipcRendererEvent (Some [VNum 7])
                  {| requestId := Some "V1StGXR8"; callerId := 1%Z;
                     budget := Some 50%Z |})
               (VError "boom") eq_refl [TimerFired]).
Defined.

(** ** More about the hub *)

Section HubTurns.

Variable w : Main.Electron.
Implicit Types (st : Main.State).

Lemma withService_same st : Main.withService st (Main.service st) = st.
Proof. now destruct st. Qed.

Lemma lift_nothing st : Main.lift st ([], Main.service st) = st.
Proof. unfold Main.lift. simpl. apply withService_same. Qed.

(** A reply for an identifier that is not pending changes nothing. *)
Lemma reply_unknown st rid d e :
  Main.microtasks st = [] ->
  Base.get (Base.pendingRequests (Main.service st)) rid = None ->
  Main.dispatch w st (Main.ReplyToMessage (Some rid) d e) = st.
Proof.
  intros Hq Hget. unfold Main.dispatch. simpl. unfold Main.handleReplyTo.
  unfold Base.rejectPendingRequest, Base.resolvePendingRequest.
  rewrite Hget. destruct (truthy e); rewrite lift_nothing;
    now apply drain_idle.
Qed.

Lemma reply_untagged st d e :
  Main.microtasks st = [] ->
  Main.dispatch w st (Main.ReplyToMessage None d e) = st.
Proof. intro Hq. unfold Main.dispatch. simpl. now apply drain_idle. Qed.

(** *** What only shrinks *)

Lemma applyEffect_timers st (e : Base.effect Main.continuation) :
  incl (Main.timers (Main.applyEffect st e)) (Main.timers st).
Proof.
  destruct e as [t|[n|n] v]; simpl.
  - intros p Hp. now apply filter_In in Hp.
  - unfold Main.settlePromise. destruct (Main.suspended _ n); apply incl_refl.
  - unfold Main.settlePromise. destruct (Main.suspended _ n); apply incl_refl.
Qed.

Lemma applyEffects_timers (l : list (Base.effect Main.continuation)) st :
  incl (Main.timers (fold_left Main.applyEffect l st)) (Main.timers st).
Proof.
  revert st. induction l as [|e l IH]; intro st; simpl; [apply incl_refl|].
  eapply incl_tran; [apply IH | apply applyEffect_timers].
Qed.

Lemma lift_timers st r : incl (Main.timers (Main.lift st r)) (Main.timers st).
Proof.
  exact (applyEffects_timers (fst r) (Main.withService st (snd r))).
Qed.

Lemma continue_timers st m :
  incl (Main.timers (Main.continue st m)) (Main.timers st).
Proof.
  unfold Main.continue. destruct (Main.outcome m); [apply incl_refl|].
  unfold Main.catchInvokeTo. simpl. apply lift_timers.
Qed.

Lemma drain_timers rounds st :
  incl (Main.timers (Main.drain rounds st)) (Main.timers st).
Proof.
  revert st. induction rounds as [|k IH]; intro st; simpl; [apply incl_refl|].
  destruct (Main.microtasks st) as [|m rest]; [apply incl_refl|].
  eapply incl_tran; [apply IH|].
  eapply incl_tran; [apply continue_timers | apply incl_refl].
Qed.

Lemma reject_absent st id id' e :
  Base.get (Base.pendingRequests (Main.service st)) id = None ->
  Base.get (Base.pendingRequests
              (Main.service
                 (Main.lift st (Base.rejectPendingRequest (Main.service st)
                                                          id' e)))) id
  = None.
Proof.
  intro H. destruct (lift_frame st (Base.rejectPendingRequest
                                      (Main.service st) id' e))
    as [_ [_ [_ ->]]].
  exact (perform_absent (Main.service st) (Base.Reject id' e) id H).
Qed.

Lemma continue_absent st m id :
  Base.get (Base.pendingRequests (Main.service st)) id = None ->
  Base.get (Base.pendingRequests (Main.service (Main.continue st m))) id = None.
Proof.
  intro H. unfold Main.continue. destruct (Main.outcome m); [exact H|].
  unfold Main.catchInvokeTo. simpl. now apply reject_absent.
Qed.

Lemma drain_absent rounds st id :
  Base.get (Base.pendingRequests (Main.service st)) id = None ->
  Base.get (Base.pendingRequests (Main.service (Main.drain rounds st))) id
  = None.
Proof.
  revert st. induction rounds as [|k IH]; intros st H; simpl; [exact H|].
  destruct (Main.microtasks st) as [|m rest]; [exact H|].
  apply IH. now apply continue_absent.
Qed.

Lemma find_nowhere {A : Type} (f : A -> bool) (l : list A) :
  (forall x, In x l -> f x = false) -> find f l = None.
Proof.
  induction l as [|a l IH]; intro H; simpl; [reflexivity|].
  rewrite (H a (or_introl eq_refl)). apply IH. intros x Hx. apply H. now right.
Qed.

Lemma fireTimer_cleared st t :
  (forall p, In p (Main.timers st) -> fst p <> t) ->
  Main.dispatch w st (Main.TimerExpired t) = Main.drain (Main.budgetOf st) st.
Proof.
  intro H. unfold Main.dispatch. simpl. unfold Main.fireTimer.
  rewrite find_nowhere; [reflexivity|].
  intros p Hp. apply Nat.eqb_neq. now apply H.
Qed.

End HubTurns.

(** X12 — A reply that names no pending request is dropped: when the
    identifier on a reply-to message is not in the table, or is [undefined],
    the hub's state after the message is the state before it; nothing is
    answered, forwarded or thrown. *)
Theorem X12_unknown_reply_is_dropped (w : Main.Electron) (st : Main.State)
        (rid : option string) (d e : value) :
  Main.microtasks st = [] ->
  match rid with
  | Some id => Base.get (Base.pendingRequests (Main.service st)) id = None
  | None => True
  end ->
  Main.dispatch w st (Main.ReplyToMessage rid d e) = st.
Proof.
  intros Hq Hrid. destruct rid as [id|].
  - now apply reply_unknown.
  - now apply reply_untagged.
Qed.

Lemma X12_unknown_reply_is_dropped_witness :
  Main.dispatch Scenario.electron Scenario.hub
                (Main.ReplyToMessage (Some "V1StGXR8") (VBool true) VUndefined)
  = Scenario.hub.
Proof.
  exact (X12_unknown_reply_is_dropped Scenario.electron Scenario.hub
           (Some "V1StGXR8") (VBool true) VUndefined eq_refl eq_refl).
Defined.

(** X13 — Once a reply has settled a pending request, the request's timer
    is cancelled: for an entry with timer [t], after the reply-to message for
    its identifier (result or error), the expiry of [t] leaves the hub's
    state as it is. *)
Theorem X13_reply_cancels_the_timer (w : Main.Electron) (st : Main.State)
        (rid : string) (pr : Base.PendingRequest Main.continuation)
        (t : Timer) (d e : value) :
  Base.get (Base.pendingRequests (Main.service st)) rid = Some pr ->
  Base.timeout pr = Some t ->
  let st' := Main.dispatch w st (Main.ReplyToMessage (Some rid) d e) in
  (forall p, In p (Main.timers st') -> fst p <> t)
  /\ Main.dispatch w st' (Main.TimerExpired t) = st'.
Proof.
  intros Hget Ht st'.
  assert (Hno : forall p, In p (Main.timers st') -> fst p <> t).
  { intros p Hp. subst st'. unfold Main.dispatch in Hp.
    apply drain_timers in Hp. simpl in Hp. unfold Main.handleReplyTo in Hp.
    assert (Hc : forall k v,
               incl (Main.timers
                       (Main.lift st
                          (Base.clearIfSet (Base.timeout pr)
                             ++ [Base.Call k v],
                           Base.withPending (Main.service st)
                             (Base.delete
                                (Base.pendingRequests (Main.service st)) rid))))
                    (filter (fun q => negb (Nat.eqb (fst q) t))
                            (Main.timers st))).
    { intros k v. rewrite Ht.
      exact (applyEffect_timers
               (Main.clearTimeout
                  (Main.withService st
                     (Base.withPending (Main.service st)
                        (Base.delete (Base.pendingRequests (Main.service st))
                                     rid))) t)
               (Base.Call k v)). }
    unfold Base.rejectPendingRequest, Base.resolvePendingRequest in Hp.
    rewrite Hget in Hp.
    assert (Hin : In p (filter (fun q => negb (Nat.eqb (fst q) t))
                               (Main.timers st))).
    { destruct (truthy e); exact (Hc _ _ p Hp). }
    apply filter_In in Hin. destruct Hin as [_ Hin].
    apply Nat.eqb_neq. apply negb_true_iff. exact Hin. }
  split; [exact Hno|].
  rewrite fireTimer_cleared by exact Hno.
  apply drain_idle. subst st'. apply dispatch_quiescent.
Qed.

Lemma X13_reply_cancels_the_timer_witness :
  let forwarded :=
    Main.dispatch Scenario.electron Scenario.hub
      (Main.InvokeToMessage 1%Z Scenario.testSub (Scenario.toWindow "sub")) in
  let replied :=
    Main.dispatch Scenario.electron forwarded
      (Main.ReplyToMessage (Some "V1StGXR8") (VBool true) VUndefined) in
  Main.dispatch Scenario.electron replied (Main.TimerExpired 0) = replied.
Proof.
  exact (proj2 (X13_reply_cancels_the_timer Scenario.electron
                  (Main.dispatch Scenario.electron Scenario.hub
                     (Main.InvokeToMessage 1%Z Scenario.testSub
                                           (Scenario.toWindow "sub")))
                  "V1StGXR8"
                  {| Base.resolve := Main.ResolveOf 0;
                     Base.reject := Main.RejectOf 0;
                     Base.timeout := Some 0 |}
                  0 (VBool true) VUndefined eq_refl eq_refl)).
Defined.

(** X14 — When the hub's timer for a forwarded call fires, the call's
    identifier is not pending afterwards, whether or not it was before, and
    a reply that arrives later for it leaves the hub's state as it is: late
    replies are dropped. *)
Theorem X14_reply_after_timeout_is_dropped (w : Main.Electron)
        (st : Main.State) (t : Timer) (rid : string) (d e : value) :
  find (fun p => Nat.eqb (fst p) t) (Main.timers st) = Some (t, rid) ->
  let st' := Main.dispatch w st (Main.TimerExpired t) in
  Base.get (Base.pendingRequests (Main.service st')) rid = None
  /\ Main.dispatch w st' (Main.ReplyToMessage (Some rid) d e) = st'.
Proof.
  intros Hfind st'.
  assert (Hgone : Base.get (Base.pendingRequests (Main.service st')) rid = None).
  { subst st'. unfold Main.dispatch. apply drain_absent.
    simpl. unfold Main.fireTimer. rewrite Hfind. simpl.
    match goal with
    | |- context [Main.lift ?a ?r] =>
        destruct (lift_frame a r) as [_ [_ [_ ->]]]
    end.
    simpl. unfold Base.rejectPendingRequest.
    destruct (Base.get (Base.pendingRequests (Main.service st)) rid) eqn:E;
      simpl; [apply get_delete_same | exact E]. }
  split; [exact Hgone|].
  apply reply_unknown; [|exact Hgone].
  subst st'. apply dispatch_quiescent.
Qed.

Lemma X14_reply_after_timeout_is_dropped_witness :
  let forwarded :=
    Main.dispatch Scenario.electron Scenario.hub
      (Main.InvokeToMessage 1%Z Scenario.testSub (Scenario.toWindow "sub")) in
  let expired :=
    Main.dispatch Scenario.electron forwarded (Main.TimerExpired 0) in
  Main.dispatch Scenario.electron expired
                (Main.ReplyToMessage (Some "V1StGXR8") (VBool true) VUndefined)
  = expired.
Proof.
  exact (proj2 (X14_reply_after_timeout_is_dropped Scenario.electron
                  (Main.dispatch Scenario.electron Scenario.hub
                     (Main.InvokeToMessage 1%Z Scenario.testSub
                                           (Scenario.toWindow "sub")))
                  0 "V1StGXR8" (VBool true) VUndefined eq_refl)).
Defined.

(** X15 — For invoke-to messages that carry their options object, as the
    renderer's [invokeTo] sends them, the invoke-to handler never rejects:
    from a new hub, after any sequence of such relay requests, of replies,
    send-to messages, timer expiries and [destroy] calls, every answer given
    to a caller of invoke-to is a fulfilment.  (A message without the
    options object is not among the events: the handler destructures the
    object before its [try] block.) *)
Theorem X15_invoke_to_with_options_never_rejects (w : Main.Electron)
        (user : option Base.IpcServiceBaseOptions)
        (lookup : option (list value -> option Z)) (rng : nat -> string)
        (evs : list Main.event) :
  Forall Main.fulfilled
         (Main.returned (Main.runAll w (Main.create user lookup rng) evs)).
Proof.
  apply fulfilled_only. constructor.
Qed.

(** X16 — When target resolution fails, with either error, the invoke-to
    handler installs no timer, adds no pending entry and forwards nothing: it
    only consumes a request identifier and answers its caller, with
    [undefined].  The send-to handler only lets the error out. *)
Theorem X16_failed_resolution_touches_nothing (w : Main.Electron)
        (st : Main.State) (sender : Z) (channel : string)
        (options : RequestOptions) (error : value) :
  Main.microtasks st = [] ->
  Main.resolveTarget w st options = inr error ->
  Base.get (Base.pendingRequests (Main.service st))
           (fst (Base.generateId (Main.service st))) = None ->
  Main.dispatch w st (Main.InvokeToMessage sender channel options)
  = Main.withReturned
      (Main.withService (Main.withInvocations st (S (Main.invocations st)))
                        (snd (Base.generateId (Main.service st))))
      (Main.returned st ++ [(Main.invocations st, Fulfilled VUndefined)])
  /\ Main.dispatch w st (Main.SendToMessage sender channel options)
     = Main.withUncaught st (Main.uncaught st ++ [error]).
Proof.
  intros Hq Hres Hfresh. split.
  - unfold Main.dispatch. simpl. unfold Main.handleInvokeTo. simpl.
    rewrite (resolveTarget_same w st) by reflexivity. rewrite Hres.
    unfold Main.catchInvokeTo, Base.rejectPendingRequest. simpl in *.
    rewrite Hfresh. unfold Main.lift. simpl.
    now apply drain_idle.
  - unfold Main.dispatch. simpl. unfold Main.handleSendTo. rewrite Hres.
    now apply drain_idle.
Qed.

Lemma X16_failed_resolution_touches_nothing_witness :
  Main.timers
    (Main.dispatch Scenario.electron Scenario.hub
       (Main.InvokeToMessage 1%Z Scenario.testSub (Scenario.toWindow "closed")))
  = []
  /\ Main.uncaught
       (Main.dispatch Scenario.electron Scenario.hub
          (Main.SendToMessage 1%Z Scenario.testSub (Scenario.toWindow "closed")))
     = [VError "webContents with id 9 not found"].
Proof.
  destruct (X16_failed_resolution_touches_nothing Scenario.electron
              Scenario.hub 1%Z Scenario.testSub (Scenario.toWindow "closed")
              (VError "webContents with id 9 not found")
              eq_refl eq_refl eq_refl) as [Hi Hs].
  rewrite Hi, Hs. split; reflexivity.
Defined.

(** X17 — How the target is resolved.  An explicit non-zero [webContentsId]
    decides alone, the lookup function is not consulted: the target is that
    window if it is live, and otherwise resolution fails; for an identifier
    within the safe integers the error is
    ['webContents with id <decimal digits> not found'].  An explicit
    identifier of 0 counts as none.  Without a usable explicit identifier, a
    call with no [windowParams], or a hub with no [getWebContentsId], fails
    with ['webContentsId is required'].  A target that is resolved is never 0
    and always live. *)
Theorem X17_target_resolution (w : Main.Electron) (st : Main.State)
        (options : RequestOptions) :
  (forall id, webContentsId options = Some id -> id <> 0%Z ->
     (Main.fromId w id = true -> Main.resolveTarget w st options = inl id)
     /\ (Main.fromId w id = false ->
         exists error, Main.resolveTarget w st options = inr error)
     /\ (Main.fromId w id = false ->
         (Z.abs id <= Main.maxSafeInteger)%Z ->
         Main.resolveTarget w st options
         = inr (VError ("webContents with id "
                          ++ DecimalString.NilZero.string_of_int (Z.to_int id)
                          ++ " not found"))))
  /\ (webContentsId options = Some 0%Z ->
      Main.resolveTarget w st options
      = Main.resolveTarget w st
          {| timeout := timeout options; data := data options;
             webContentsId := None; windowParams := windowParams options |})
  /\ (Main.nonzero (webContentsId options) = None ->
      windowParams options = None \/ Main.getWebContentsId st = None ->
      Main.resolveTarget w st options
      = inr (VError "webContentsId is required"))
  /\ (forall id, Main.resolveTarget w st options = inl id ->
                 id <> 0%Z /\ Main.fromId w id = true).
Proof.
  unfold Main.resolveTarget, Main.targetWebContentsId.
  split; [|split; [|split]].
  - intros id Hid Hnz. rewrite Hid. simpl.
    rewrite (proj2 (Z.eqb_neq id 0) Hnz). simpl.
    rewrite (proj2 (Z.eqb_neq id 0) Hnz).
    split; [|split].
    + now intros ->.
    + intros ->. eexists. reflexivity.
    + now intros -> _.
  - intro Hz. rewrite Hz. reflexivity.
  - intros Hnone Hor. rewrite Hnone.
    destruct Hor as [-> | Hg]; [reflexivity|].
    rewrite Hg. now destruct (windowParams options).
  - intros id H. fold (Main.targetWebContentsId st options) in H.
    destruct (Main.nonzero (Main.targetWebContentsId st options))
      as [n|] eqn:E; [|discriminate].
    destruct (Main.fromId w n) eqn:F; [|discriminate].
    injection H as <-. split; [|exact F].
    unfold Main.nonzero in E.
    destruct (Main.targetWebContentsId st options) as [z|]; [|discriminate].
    destruct (z =? 0)%Z eqn:Ez; [discriminate|].
    injection E as <-. now apply Z.eqb_neq.
Qed.

Lemma X17_target_resolution_witness :
  Main.resolveTarget Scenario.electron Scenario.hub
    {| timeout := None; data := None; webContentsId := Some 7%Z;
       windowParams := Some [VStr "sub"] |}
  = inr (VError "webContents with id 7 not found").
Proof.
  refine (eq_trans
            (proj2 (proj2
               (proj1 (X17_target_resolution Scenario.electron Scenario.hub
                         {| timeout := None; data := None;
                            webContentsId := Some 7%Z;
                            windowParams := Some [VStr "sub"] |})
                      7%Z eq_refl _)) eq_refl _)
            eq_refl);
    discriminate.
Defined.

(** X18 — The send-to relay.  When the target resolves and the transport
    accepts the message, the hub forwards the channel and the data with
    metadata that carries only the sender's identifier, and nothing else
    changes: no pending entry, no timer, no answer.  A handler registered
    with [handle] on the target still sends a reply for such a message; the
    reply carries an undefined [requestId], and the hub drops it. *)
Theorem X18_send_to_then_reply {K : Type} (w : Main.Electron) (st : Main.State)
        (peer : Base.BaseIpcService K) (sender id : Z) (channel : string)
        (options : RequestOptions) :
  let message :=
    {| Main.target := id;
       Main.channel := channel;
       Main.payload := data options;
       Main.meta := {| requestId := None; callerId := sender;
                       budget := None |} |} in
  let st1 := Main.dispatch w st (Main.SendToMessage sender channel options) in
  Main.microtasks st = [] ->
  Main.resolveTarget w st options = inl id ->
  Main.sendError w message = None ->
  st1 = Main.withForwarded st (Main.forwarded st ++ [message])
  /\ (forall listener evs m,
         In m (Renderer.sent
                 (Renderer.handling peer listener (Main.arrives message) evs)) ->
         (exists s, m = Renderer.reply peer None s)
         /\ Main.receive w st1 id m = st1).
Proof.
  intros message st1 Hq Hres Hsend.
  assert (Hst1 : st1 = Main.withForwarded st (Main.forwarded st ++ [message])).
  { subst st1. unfold Main.dispatch. simpl. unfold Main.handleSendTo.
    rewrite Hres. fold message. rewrite Hsend. now apply drain_idle. }
  split; [exact Hst1|].
  intros listener evs m Hin. rewrite handling_spec in Hin. simpl in Hin.
  destruct (result _) as [s|]; [|destruct Hin].
  destruct Hin as [<-|[]]. split; [now exists s|].
  assert (Hq1 : Main.microtasks st1 = []) by (rewrite Hst1; exact Hq).
  unfold Main.receive.
  destruct (Main.route (Main.service st1)
                       (Renderer.channel (Renderer.reply peer None s)))
    as [[| |]|]; destruct s; simpl; try reflexivity;
    now apply reply_untagged.
Qed.

Lemma X18_send_to_then_reply_witness :
  let st1 :=
    Main.dispatch Scenario.electron Scenario.hub
      (Main.SendToMessage 1%Z Scenario.testSub (Scenario.toWindow "sub")) in
  Main.receive Scenario.electron st1 2%Z
               (Renderer.reply Scenario.peer None (Fulfilled (VBool true)))
  = st1.
Proof.
  refine (proj2 (proj2 (X18_send_to_then_reply Scenario.electron Scenario.hub
                          Scenario.peer 1%Z 2%Z Scenario.testSub
                          (Scenario.toWindow "sub") eq_refl eq_refl eq_refl)
                       (fun _ _ _ => Fn.Returns (VBool true)) [] _ _)).
  left. reflexivity.
Defined.

(** ** Every call is answered at most once *)

Section HubInvariant.

Variable w : Main.Electron.
Implicit Types (st : Main.State).

Lemma filter_all {A : Type} (f : A -> bool) (l : list A) :
  (forall x, In x l -> f x = true) -> filter f l = l.
Proof.
  induction l as [|a l IH]; intro H; simpl; [reflexivity|].
  rewrite (H a (or_introl eq_refl)). f_equal. apply IH.
  intros x Hx. apply H. now right.
Qed.

Lemma suspended_perm (l : list (nat * string)) (n : nat) (id : string) :
  Main.suspended l n = Some id -> NoDup (map fst l) ->
  Permutation (map fst l)
              (n :: map fst (filter (fun p => negb (Nat.eqb (fst p) n)) l)).
Proof.
  induction l as [|[m i] l IH]; simpl; [discriminate|].
  destruct (Nat.eqb m n) eqn:E; intros H Hnd; simpl;
    inversion Hnd as [|x xs Hnotin Hnd']; subst.
  - apply Nat.eqb_eq in E. subst m.
    rewrite filter_all; [apply Permutation_refl|].
    intros [k j] Hin. simpl. apply negb_true_iff, Nat.eqb_neq.
    intro Hk. subst k. apply Hnotin.
    exact (in_map fst _ _ Hin).
  - eapply Permutation_trans; [apply perm_skip, (IH H Hnd') | apply perm_swap].
Qed.

Lemma nodup_app_disjoint {A : Type} (l l' : list A) (a : A) :
  NoDup (l ++ l') -> In a l -> ~ In a l'.
Proof.
  induction l as [|x l IH]; simpl; intros Hnd Hin Hin'; [exact Hin|].
  inversion Hnd as [|y ys Hnotin Hnd']; subst.
  destruct Hin as [->|Hin].
  - apply Hnotin. apply in_or_app. now right.
  - exact (IH Hnd' Hin Hin').
Qed.

Lemma queued_perm (A M R : list nat) (n : nat) :
  Permutation (n :: A ++ M ++ R) (A ++ (M ++ [n]) ++ R).
Proof.
  eapply Permutation_trans; [apply Permutation_middle|].
  apply Permutation_app_head. rewrite <- app_assoc. simpl.
  apply Permutation_middle.
Qed.

Lemma wellFormed_move (current current' : list nat) st st' :
  Permutation (current ++ Main.running st) (current' ++ Main.running st') ->
  Main.invocations st' = Main.invocations st ->
  Main.wellFormed current st -> Main.wellFormed current' st'.
Proof.
  intros Hp Hi [Hnd Hlt]. split.
  - exact (Permutation_NoDup Hp Hnd).
  - rewrite Hi. exact (Permutation_Forall Hp Hlt).
Qed.

Lemma wellFormed_awaiting (current : list nat) st :
  Main.wellFormed current st -> NoDup (map fst (Main.awaiting st)).
Proof.
  intros [Hnd _]. apply NoDup_app_remove_l in Hnd.
  unfold Main.running in Hnd. now apply NoDup_app_remove_r in Hnd.
Qed.

Lemma settlePromise_running st n s :
  NoDup (map fst (Main.awaiting st)) ->
  Permutation (Main.running st) (Main.running (Main.settlePromise st n s)).
Proof.
  intro Hnd. unfold Main.settlePromise.
  destruct (Main.suspended (Main.awaiting st) n) as [id|] eqn:E;
    [|apply Permutation_refl].
  unfold Main.running. simpl. rewrite map_app. simpl.
  eapply Permutation_trans;
    [apply Permutation_app_tail, (suspended_perm _ _ _ E Hnd)|].
  simpl. rewrite <- app_assoc. simpl.
  rewrite !app_assoc. apply Permutation_middle.
Qed.

Lemma applyEffect_wellFormed (current : list nat) st
      (e : Base.effect Main.continuation) :
  Main.wellFormed current st -> Main.wellFormed current (Main.applyEffect st e).
Proof.
  intro H. pose proof (wellFormed_awaiting _ _ H) as Hnd.
  destruct e as [t|[n|n] v]; simpl.
  - exact H.
  - eapply wellFormed_move; [| |exact H].
    + apply Permutation_app_head, settlePromise_running, Hnd.
    + unfold Main.settlePromise. now destruct (Main.suspended _ n).
  - eapply wellFormed_move; [| |exact H].
    + apply Permutation_app_head, settlePromise_running, Hnd.
    + unfold Main.settlePromise. now destruct (Main.suspended _ n).
Qed.

Lemma lift_wellFormed (current : list nat) st r :
  Main.wellFormed current st -> Main.wellFormed current (Main.lift st r).
Proof.
  intro H. unfold Main.lift.
  assert (H0 : Main.wellFormed current (Main.withService st (snd r))) by exact H.
  revert H0. generalize (Main.withService st (snd r)).
  induction (fst r) as [|e l IH]; intros st0 H0; simpl; [exact H0|].
  apply IH. now apply applyEffect_wellFormed.
Qed.

Lemma finish_wellFormed (current : list nat) st n s :
  Main.wellFormed (n :: current) st ->
  Main.wellFormed current
    (Main.withReturned st (Main.returned st ++ [(n, s)])).
Proof.
  apply wellFormed_move; [|reflexivity].
  unfold Main.running. simpl. rewrite map_app. simpl.
  rewrite !app_assoc. apply Permutation_cons_append.
Qed.

Lemma catchInvokeTo_wellFormed (current : list nat) st n id e :
  Main.wellFormed (n :: current) st ->
  Main.wellFormed current (Main.catchInvokeTo st n id e).
Proof.
  intro H. unfold Main.catchInvokeTo.
  apply finish_wellFormed. now apply lift_wellFormed.
Qed.

Lemma continue_wellFormed (current : list nat) st m :
  Main.wellFormed (Main.invocation m :: current) st ->
  Main.wellFormed current (Main.continue st m).
Proof.
  intro H. unfold Main.continue. destruct (Main.outcome m).
  - now apply finish_wellFormed.
  - now apply catchInvokeTo_wellFormed.
Qed.

Lemma drain_wellFormed rounds st :
  Main.wellFormed [] st -> Main.wellFormed [] (Main.drain rounds st).
Proof.
  revert st. induction rounds as [|k IH]; intros st H; simpl; [exact H|].
  destruct (Main.microtasks st) as [|m rest] eqn:E; [exact H|].
  apply IH, continue_wellFormed.
  apply (wellFormed_move [] [Main.invocation m] st); [|reflexivity|exact H].
  unfold Main.running. rewrite E. simpl.
  apply Permutation_sym, Permutation_middle.
Qed.

Lemma handleInvokeTo_wellFormed st sender channel options :
  Main.wellFormed [] st ->
  Main.wellFormed [] (Main.handleInvokeTo w st sender channel options).
Proof.
  intros [Hnd Hlt]. simpl in Hnd, Hlt.
  assert (Hnew : ~ In (Main.invocations st) (Main.running st)).
  { intro Hin. rewrite Forall_forall in Hlt. specialize (Hlt _ Hin). lia. }
  assert (Hlt' : Forall (fun n => n < S (Main.invocations st))
                        (Main.invocations st :: Main.running st)).
  { constructor; [lia|]. eapply Forall_impl; [|exact Hlt].
    simpl. intros. lia. }
  assert (Hnd' : NoDup (Main.invocations st :: Main.running st))
    by now constructor.
  unfold Main.handleInvokeTo. simpl.
  destruct (Main.resolveTarget w _ options) as [id|error].
  - destruct (Main.sendError w _); simpl.
    + split; simpl.
      * refine (Permutation_NoDup _ Hnd'). unfold Main.running. simpl.
        rewrite map_app. apply queued_perm.
      * refine (Permutation_Forall _ Hlt'). unfold Main.running. simpl.
        rewrite map_app. apply queued_perm.
    + split; assumption.
  - apply catchInvokeTo_wellFormed. split; assumption.
Qed.

Lemma task_wellFormed st ev :
  Main.wellFormed [] st -> Main.wellFormed [] (Main.task w st ev).
Proof.
  intro H.
  destruct ev as [sender channel options|rid responseData error
                 |sender channel options|t|]; simpl.
  - now apply handleInvokeTo_wellFormed.
  - unfold Main.handleReplyTo. destruct rid as [id|]; [|exact H].
    destruct (truthy error); now apply lift_wellFormed.
  - unfold Main.handleSendTo.
    destruct (Main.resolveTarget w st options); [|exact H].
    destruct (Main.sendError w _); exact H.
  - unfold Main.fireTimer.
    destruct (find (fun p => Nat.eqb (fst p) t) (Main.timers st))
      as [[t' id]|]; [|exact H].
    assert (H1 : Main.wellFormed []
                   (Main.lift (Main.clearTimeout st t)
                      (Base.rejectPendingRequest
                         (Main.service (Main.clearTimeout st t)) id
                         (VError "Request timeout"))))
      by now apply lift_wellFormed.
    exact H1.
  - now apply lift_wellFormed.
Qed.

Lemma dispatch_wellFormed st ev :
  Main.wellFormed [] st -> Main.wellFormed [] (Main.dispatch w st ev).
Proof.
  intro H. unfold Main.dispatch. now apply drain_wellFormed, task_wellFormed.
Qed.

Lemma runAll_wellFormed (evs : list Main.event) st :
  Main.wellFormed [] st -> Main.wellFormed [] (Main.runAll w st evs).
Proof.
  revert st. induction evs as [|ev evs IH]; intros st H; simpl; [exact H|].
  now apply IH, dispatch_wellFormed.
Qed.

End HubInvariant.

(** X19 — Every relayed call is answered at most once.  From a new hub,
    after any sequence of relay requests, replies, send-to messages, timer
    expiries and [destroy] calls, no run of the invoke-to handler has
    returned twice, none is at once suspended and finished, and every run
    that has returned was started. *)
Theorem X19_answered_at_most_once (w : Main.Electron)
        (user : option Base.IpcServiceBaseOptions)
        (lookup : option (list value -> option Z)) (rng : nat -> string)
        (evs : list Main.event) :
  let st := Main.runAll w (Main.create user lookup rng) evs in
  NoDup (map fst (Main.returned st))
  /\ (forall n, In n (map fst (Main.awaiting st)) ->
                ~ In n (map fst (Main.returned st)))
  /\ (forall n, In n (map fst (Main.returned st)) -> n < Main.invocations st).
Proof.
  intro st.
  assert (H : Main.wellFormed [] st).
  { subst st. apply runAll_wellFormed. split; constructor. }
  destruct H as [Hnd Hlt]. simpl in Hnd, Hlt. unfold Main.running in *.
  split; [|split].
  - now apply NoDup_app_remove_l, NoDup_app_remove_l in Hnd.
  - intros n Ha Hr.
    apply (nodup_app_disjoint _ _ n Hnd Ha).
    apply in_or_app. now right.
  - intros n Hr. rewrite Forall_forall in Hlt. apply Hlt.
    apply in_or_app. right. apply in_or_app. now right.
Qed.

(** ** Shutdown *)

Section HubShutdown.

Variable w : Main.Electron.
Implicit Types (st : Main.State).

Lemma cleared_stays_cleared (l : list (Base.effect Main.continuation)) st
      (t : Timer) :
  In (Base.ClearTimeout t) l ->
  forall p, In p (Main.timers (fold_left Main.applyEffect l st)) -> fst p <> t.
Proof.
  revert st. induction l as [|e l IH]; intros st Hin p Hp; [destruct Hin|].
  simpl in Hp. destruct Hin as [->|Hin].
  - apply applyEffects_timers in Hp. simpl in Hp.
    apply filter_In in Hp. destruct Hp as [_ Hp].
    apply Nat.eqb_neq. now apply negb_true_iff.
  - exact (IH _ Hin p Hp).
Qed.

Lemma empty_when_nothing_found {K : Type} (m : Base.table K) :
  (forall id, Base.get m id = None) -> m = [].
Proof.
  destruct m as [|[k v] m]; [reflexivity|].
  intro H. specialize (H k). simpl in H. rewrite String.eqb_refl in H.
  discriminate.
Qed.

End HubShutdown.

(** X20 — [destroy] on the hub: afterwards no request is pending, the timer
    of every entry that was pending is cancelled, nothing has been forwarded
    and no error has left a listener, and every reply that arrives later is
    dropped. *)
Theorem X20_destroy_leaves_nothing_pending (w : Main.Electron)
        (st : Main.State) :
  let st' := Main.dispatch w st Main.Destroy in
  Base.pendingRequests (Main.service st') = []
  /\ (forall id pr t p,
         In (id, pr) (Base.pendingRequests (Main.service st)) ->
         Base.timeout pr = Some t ->
         In p (Main.timers st') -> fst p <> t)
  /\ Main.forwarded st' = Main.forwarded st
  /\ Main.uncaught st' = Main.uncaught st
  /\ (forall rid d e, Main.dispatch w st' (Main.ReplyToMessage rid d e) = st').
Proof.
  intro st'.
  assert (Hempty : Base.pendingRequests (Main.service st') = []).
  { apply empty_when_nothing_found. intro id. subst st'.
    unfold Main.dispatch. apply drain_absent. simpl.
    destruct (lift_frame st (Base.destroy (Main.service st)))
      as [_ [_ [_ ->]]].
    unfold Base.destroy. now rewrite dropAll_spec. }
  split; [exact Hempty|]. split; [|split; [|split]].
  - intros id pr t p Hin Ht Hp. subst st'. unfold Main.dispatch in Hp.
    apply drain_timers in Hp. simpl in Hp. unfold Main.lift in Hp.
    refine (cleared_stays_cleared _ _ t _ p Hp).
    unfold Base.destroy. rewrite dropAll_spec. simpl.
    apply in_flat_map. exists (id, pr). split; [exact Hin|].
    unfold Base.rejection. simpl. rewrite Ht. now left.
  - subst st'. unfold Main.dispatch.
    destruct (drain_quiet (Main.budgetOf (Main.task w st Main.Destroy))
                          (Main.task w st Main.Destroy)) as [-> _].
    apply lift_quiet.
  - subst st'. unfold Main.dispatch.
    destruct (drain_quiet (Main.budgetOf (Main.task w st Main.Destroy))
                          (Main.task w st Main.Destroy)) as [_ ->].
    apply lift_quiet.
  - intros rid d e.
    assert (Hq : Main.microtasks st' = []) by apply dispatch_quiescent.
    destruct rid as [id|].
    + apply reply_unknown; [exact Hq|]. now rewrite Hempty.
    + now apply reply_untagged.
Qed.

(** ** Registering and unsubscribing listeners *)

Section Subscriptions.

Import Emitter.

Lemma same_refl (f : callback) : same f f = true.
Proof. destruct f; simpl; apply Nat.eqb_refl. Qed.

Lemma removeFirst_none (ch : string) (f : callback)
      (l l' : list Subscription) :
  (forall s, In s l -> isFor ch f s = false) ->
  removeFirst ch f (l ++ l') = l ++ removeFirst ch f l'.
Proof.
  induction l as [|s l IH]; intro H; simpl; [reflexivity|].
  rewrite (H s (or_introl eq_refl)). f_equal. apply IH.
  intros x Hx. apply H. now right.
Qed.

(** [off] reaches past the registrations made later for other functions
    and removes the one it finds. *)
Lemma off_finds (ch : string) (f : callback) (l later : list Subscription)
      (s : Subscription) :
  isFor ch f s = true ->
  (forall x, In x later -> isFor ch f x = false) ->
  off (l ++ [s] ++ later) ch f = l ++ later.
Proof.
  intros Hs Hlater. unfold off.
  rewrite rev_app_distr. simpl. rewrite <- app_assoc.
  rewrite removeFirst_none.
  - simpl. rewrite Hs. now rewrite rev_app_distr, !rev_involutive.
  - intros x Hx. apply Hlater. now apply in_rev.
Qed.

Lemma off_last (ch : string) (f : callback) (l : list Subscription)
      (shot : bool) :
  off (l ++ [{| channel := ch; callback_ := f; oneShot := shot |}]) ch f = l.
Proof.
  pose proof (off_finds ch f l []
                {| channel := ch; callback_ := f; oneShot := shot |}) as H.
  simpl in H. rewrite app_nil_r in H. apply H.
  - unfold isFor. simpl. now rewrite String.eqb_refl, same_refl.
  - intros x [].
Qed.

End Subscriptions.

(** X21 — Unsubscribing at once undoes the registration: for [handle],
    [handleOnce], [receive] and [receiveOnce] of the renderer service and for
    [on] and [once] of the main service, calling the returned function right
    after the registration leaves the listeners exactly as they were before
    it. *)
Theorem X21_unsubscribe_undoes_registration {K : Type} (win : Window.t K)
        (m : MainApi.IpcMain) (channel : string)
        (listener : Renderer.Listener) (f : nat) :
  let undone (r : Window.t K * Unsubscribe) :=
    Window.subscriptions (Window.unsubscribe (fst r) (snd r)) in
  let undoneMain (r : MainApi.IpcMain * Unsubscribe) :=
    MainApi.listeners (MainApi.unsubscribe (fst r) (snd r)) in
  undone (Window.handle win channel listener) = Window.subscriptions win
  /\ undone (Window.handleOnce win channel listener)
     = Window.subscriptions win
  /\ undone (Window.receive win channel f) = Window.subscriptions win
  /\ undone (Window.receiveOnce win channel f) = Window.subscriptions win
  /\ undoneMain (MainApi.on (Window.service win) m channel f)
     = MainApi.listeners m
  /\ undoneMain (MainApi.once (Window.service win) m channel f)
     = MainApi.listeners m.
Proof.
  simpl. unfold Emitter.on, Emitter.once.
  repeat split; apply off_last.
Qed.

Section LaterRegistrations.

Context {K : Type}.
Implicit Types (win : Window.t K).

Lemma register_adds win (r : Window.registration) (ch : string) (n : nat)
      (listener : Renderer.Listener) :
  n < Window.closures win ->
  n < Window.closures (Window.register win r)
  /\ Window.service (Window.register win r) = Window.service win
  /\ exists s,
      Window.subscriptions (Window.register win r)
      = Window.subscriptions win ++ [s]
      /\ Emitter.isFor ch (Emitter.Closure n listener) s = false.
Proof.
  intro Hn. destruct r as [c l|c l|c g|c g]; simpl;
    (split; [lia|]); (split; [reflexivity|]);
    eexists; (split; [reflexivity|]); unfold Emitter.isFor; simpl;
    rewrite ?andb_false_r; try reflexivity;
    rewrite (proj2 (Nat.eqb_neq (Window.closures win) n)) by lia;
    apply andb_false_r.
Qed.

Lemma registers_add (later : list Window.registration) win (ch : string)
      (n : nat) (listener : Renderer.Listener) :
  n < Window.closures win ->
  exists added,
    Window.subscriptions (fold_left Window.register later win)
    = Window.subscriptions win ++ added
    /\ forall s, In s added ->
                 Emitter.isFor ch (Emitter.Closure n listener) s = false.
Proof.
  revert win. induction later as [|r later IH]; intros win Hn; simpl.
  - exists []. split; [now rewrite app_nil_r | intros s []].
  - destruct (register_adds win r ch n listener Hn) as [Hn' [_ [s [Hs Hf]]]].
    destruct (IH _ Hn') as [added [Ha Hfa]].
    exists (s :: added). split.
    + rewrite Ha, Hs, <- app_assoc. reflexivity.
    + intros x [<-|Hx]; [exact Hf | now apply Hfa].
Qed.

End LaterRegistrations.

(** X22 — The function returned by [handle] or [handleOnce] removes exactly
    the listener that call registered: whatever is registered afterwards, on
    any channel and with the same handler or another, unsubscribing leaves
    every earlier and every later listener in place and in order. *)
Theorem X22_unsubscribe_removes_that_listener {K : Type} (win : Window.t K)
        (channel : string) (listener : Renderer.Listener) (oneShot : bool)
        (later : list Window.registration) :
  let r := if oneShot then Window.handleOnce win channel listener
           else Window.handle win channel listener in
  let win' := fold_left Window.register later (fst r) in
  exists added,
    Window.subscriptions win'
    = Window.subscriptions win
        ++ [{| Emitter.channel := fst (snd r);
               Emitter.callback_ := snd (snd r);
               Emitter.oneShot := oneShot |}]
        ++ added
    /\ Window.subscriptions (Window.unsubscribe win' (snd r))
       = Window.subscriptions win ++ added.
Proof.
  intros r win'.
  set (ch := Base.wrapChannel (Window.service win)
                              (scoped IpcChannelType.External channel)).
  assert (Hr : snd r = (ch, Emitter.Closure (Window.closures win) listener)
               /\ Window.subscriptions (fst r)
                  = Window.subscriptions win
                      ++ [{| Emitter.channel := ch;
                             Emitter.callback_ :=
                               Emitter.Closure (Window.closures win) listener;
                             Emitter.oneShot := oneShot |}]
               /\ Window.closures win < Window.closures (fst r)).
  { subst r. destruct oneShot; simpl; repeat split; lia. }
  destruct Hr as [Hu [Hs Hc]].
  destruct (registers_add later (fst r) ch (Window.closures win) listener Hc)
    as [added [Ha Hf]].
  exists added. rewrite Hu. simpl. subst win'. rewrite Ha, Hs.
  rewrite <- app_assoc. split; [reflexivity|].
  apply off_finds; [|exact Hf].
  unfold Emitter.isFor. simpl. now rewrite String.eqb_refl, Nat.eqb_refl.
Qed.

(** X23 — A listener registered with [handleOnce] on a channel with no other
    listener handles the first forwarded message, which starts one run of
    the wrapped listener, and is then gone: a second message starts none.  A
    listener registered with [handle] stays and handles every message. *)
Theorem X23_once_handles_one_message {K : Type} (win : Window.t K)
        (channel : string) (listener : Renderer.Listener)
        (m : Main.Forwarded) :
  Main.channel m
  = Base.wrapChannel (Window.service win)
                     (scoped IpcChannelType.External channel) ->
  (forall s, In s (Window.subscriptions win) ->
             Emitter.channel s <> Main.channel m) ->
  let once := fst (Window.handleOnce win channel listener) in
  let always := fst (Window.handle win channel listener) in
  let run :=
    Renderer.wrapListener (Window.service win) listener (Main.arrives m) in
  snd (Window.deliver once m) = [run]
  /\ Window.subscriptions (fst (Window.deliver once m))
     = Window.subscriptions win
  /\ snd (Window.deliver (fst (Window.deliver once m)) m) = []
  /\ snd (Window.deliver always m) = [run]
  /\ Window.subscriptions (fst (Window.deliver always m))
     = Window.subscriptions always
  /\ snd (Window.deliver (fst (Window.deliver always m)) m) = [run].
Proof.
  intros Hch Hfree once always run.
  assert (Hnone : filter (fun s => Emitter.channel s =? Main.channel m)
                         (Window.subscriptions win) = []).
  { induction (Window.subscriptions win) as [|s l IH]; [reflexivity|].
    simpl. rewrite (proj2 (String.eqb_neq _ _) (Hfree s (or_introl eq_refl))).
    apply IH. intros x Hx. apply Hfree. now right. }
  assert (Hkeep : forall g,
             filter (fun s => negb ((Emitter.channel s =? Main.channel m)
                                    && g s))
                    (Window.subscriptions win)
             = Window.subscriptions win).
  { intro g. apply filter_all. intros s Hs.
    now rewrite (proj2 (String.eqb_neq _ _) (Hfree s Hs)). }
  subst once always. unfold Window.deliver, Window.handleOnce, Window.handle,
                       Emitter.emit, Emitter.once, Emitter.on. simpl.
  rewrite !filter_app, !Hkeep, Hnone. simpl.
  rewrite <- Hch, String.eqb_refl. simpl.
  rewrite ?String.eqb_refl, ?app_nil_r. simpl.
  repeat split; reflexivity.
Qed.

Lemma X23_once_handles_one_message_witness :
  let win :=
    {| Window.service := Scenario.peer; Window.subscriptions := [];
       Window.closures := 0 |} in
  let m :=
    {| Main.target := 2%Z; Main.channel := Scenario.testSub;
       Main.payload := Some [VNum 7];
       Main.meta := {| requestId := Some "V1StGXR8"; callerId := 1%Z;
                       budget := Some 5000%Z |} |} in
  let once := fst (Window.handleOnce win "testSub"
                                     (fun _ _ _ => Fn.Returns (VBool true))) in
  snd (Window.deliver (fst (Window.deliver once m)) m) = [].
Proof.
  refine (proj1 (proj2 (proj2
            (X23_once_handles_one_message
               {| Window.service := Scenario.peer; Window.subscriptions := [];
                  Window.closures := 0 |}
               "testSub" (fun _ _ _ => Fn.Returns (VBool true))
               {| Main.target := 2%Z; Main.channel := Scenario.testSub;
                  Main.payload := Some [VNum 7];
                  Main.meta := {| requestId := Some "V1StGXR8";
                                  callerId := 1%Z;
                                  budget := Some 5000%Z |} |}
               eq_refl _)))).
  intros s [].
Defined.

(** X24 — Only the first reply for a request counts: when two reply-to
    messages carry the same identifier, as when two handlers are registered
    on the target's channel, the second leaves the hub's state as the first
    left it. *)
Theorem X24_second_reply_is_dropped (w : Main.Electron) (st : Main.State)
        (rid : string) (d e d' e' : value) :
  let st' := Main.dispatch w st (Main.ReplyToMessage (Some rid) d e) in
  Main.dispatch w st' (Main.ReplyToMessage (Some rid) d' e') = st'.
Proof.
  intro st'. apply reply_unknown.
  - subst st'. apply dispatch_quiescent.
  - subst st'. unfold Main.dispatch. apply drain_absent. simpl.
    unfold Main.handleReplyTo.
    assert (Hr : Base.get (Base.pendingRequests
                             (snd (Base.perform (Main.service st)
                                                (Base.Reject rid e)))) rid
                 = None
                 /\ Base.get (Base.pendingRequests
                                (snd (Base.perform (Main.service st)
                                                   (Base.Resolve rid d)))) rid
                    = None).
    { simpl. unfold Base.rejectPendingRequest, Base.resolvePendingRequest.
      destruct (Base.get (Base.pendingRequests (Main.service st)) rid) eqn:E;
        simpl; split; first [apply get_delete_same | exact E]. }
    destruct Hr as [Hj Hs]. simpl in Hj, Hs.
    destruct (truthy e);
      match goal with
      | |- context [Main.lift ?a ?r] =>
          destruct (lift_frame a r) as [_ [_ [_ ->]]]
      end; assumption.
Qed.

Lemma handlerOf_added (l : list (string * (nat * bool))) (ch : string)
      (h : nat * bool) :
  MainApi.handlerOf l ch = None ->
  MainApi.handlerOf (l ++ [(ch, h)]) ch = Some h.
Proof.
  induction l as [|[k x] l IH]; simpl.
  - intros _. now rewrite String.eqb_refl.
  - destruct (k =? ch); [discriminate | exact IH].
Qed.

(** X25 — The function returned by [handle] or [handleOnce] of the main
    service does not remove the handler: it calls [ipcMain.off], which only
    removes listeners.  After it the handler is still the channel's handler,
    so a new [handle] for the channel throws, and a listener that [on] had
    registered for the same function on that channel is what it removes. *)
Theorem X25_main_handle_cannot_be_undone {K : Type}
        (this : Base.BaseIpcService K) (m m1 : MainApi.IpcMain)
        (channel : string) (f : nat) (oneShot : bool) (u : Unsubscribe) :
  (if oneShot then MainApi.handleOnce this m channel f
   else MainApi.handle this m channel f) = inl (m1, u) ->
  let ipcChannel :=
    Base.wrapChannel this (scoped IpcChannelType.External channel) in
  let m2 := MainApi.unsubscribe m1 u in
  MainApi.handlers m2 = MainApi.handlers m1
  /\ MainApi.handlerOf (MainApi.handlers m2) ipcChannel = Some (f, oneShot)
  /\ (forall g, MainApi.handle this m2 channel g
                = inr (MainApi.secondHandler ipcChannel))
  /\ MainApi.listeners m2
     = Emitter.off (MainApi.listeners m) ipcChannel (Emitter.Function f).
Proof.
  intros H ipcChannel m2.
  assert (H' : MainApi.register this m channel f oneShot = inl (m1, u))
    by (destruct oneShot; exact H).
  unfold MainApi.register in H'. fold ipcChannel in H'.
  destruct (MainApi.handlerOf (MainApi.handlers m) ipcChannel) eqn:E;
    [discriminate|].
  injection H' as <- <-. subst m2. simpl.
  assert (Hh : MainApi.handlerOf
                 (MainApi.handlers m ++ [(ipcChannel, (f, oneShot))])
                 ipcChannel = Some (f, oneShot))
    by now apply handlerOf_added.
  split; [reflexivity|]. split; [exact Hh|]. split; [|reflexivity].
  intro g. unfold MainApi.handle, MainApi.register. simpl.
  fold ipcChannel. now rewrite Hh.
Qed.

Lemma X25_main_handle_cannot_be_undone_witness :
  let m := {| MainApi.listeners := []; MainApi.handlers := [] |} in
  match MainApi.handle (Main.service Scenario.hub) m "ping" 1 with
  | inl (m1, u) =>
      MainApi.handle (Main.service Scenario.hub) (MainApi.unsubscribe m1 u)
                     "ping" 2
      = inr (VError "Attempted to register a second handler for 'ipc-service:external:ping'")
  | inr _ => False
  end.
Proof.
  exact (proj1 (proj2 (proj2
           (X25_main_handle_cannot_be_undone (Main.service Scenario.hub)
              {| MainApi.listeners := []; MainApi.handlers := [] |}
              {| MainApi.listeners := [];
                 MainApi.handlers :=
                   [("ipc-service:external:ping", (1, false))] |}
              "ping" 1 false
              ("ipc-service:external:ping", Emitter.Function 1)
              eq_refl))) 2).
Defined.
